(** * The asynchronous request lifecycle of the Uber Eats MCP server

    A shallow embedding of [server.py]: the process-wide dictionary
    [search_results], the two dispatching tools ([find_menu_options],
    [order_food]), their background coroutines ([perform_search],
    [perform_order]) and the retrieval endpoints.

    The asyncio event loop is a pool of suspended coroutines: a call to
    [asyncio.create_task] adds a coroutine to the pool and returns at once;
    the loop later resumes pooled coroutines one step at a time, in any
    order.  The browser agent is an external collaborator: only what it does
    to its caller is modelled (it awaits [on_step] some number of times and
    then returns a text or raises). *)

From stdpp Require Import gmap strings list fin_maps pretty.

Local Open Scope string_scope.

(** ** Python results *)

(** A Python call either returns a value or raises; [exc] is the name of the
    exception class. *)
Inductive PyResult (A : Type) : Type :=
| Returned (a : A)
| Raised (exc : string).

Arguments Returned {A} a.
Arguments Raised {A} exc.

(** [d[k]] on a dict: [KeyError] when the key is missing. *)
Definition getitem (d : gmap string string) (k : string) : PyResult string :=
  match d !! k with
  | Some v => Returned v
  | None => Raised "KeyError"
  end.

(** [k not in d]. *)
Definition not_in (k : string) (d : gmap string string) : bool :=
  bool_decide (d !! k = None).

(** ** The request context and its side channel *)

(** The part of [mcp.server.fastmcp.Context] the server reads. *)
Record Context : Type := { request_id : string }.

(** What a coroutine can push to the caller through its context:
    [context.info], [context.report_progress] and [context.error]. *)
Inductive Notification : Type :=
| Info (msg : string)
| ReportProgress (progress : nat)
| Error (msg : string).

(** ** The external browser agent *)

(** Modelled from the spec: [run_browser_agent] of the module [browser],
    whose source is not at hand.  The spec gives its interface as
    [runAutomation(taskDescription, onStep) -> resultText], which may raise
    with a descriptive error and invokes [onStep] zero or more times.  One
    invocation [run_browser_agent(task=..., on_step=...)], seen from the
    caller: [OnStep k] awaits the callback and goes on as [k];
    [Return result] is the final text; [Raise msg] raises an [Exception]
    whose [str] is [msg].  Every theorem below quantifies over all such
    behaviours. *)
Inductive Engine : Type :=
| OnStep (k : Engine)
| Return (result : string)
| Raise (msg : string).

(** Number of times the engine invokes the step callback. *)
Fixpoint callbacks (e : Engine) : nat :=
  match e with
  | OnStep k => S (callbacks k)
  | Return _ | Raise _ => 0
  end.

(** ** Coroutines and their effects *)

(** The two background coroutines with their arguments. *)
Inductive Frame : Type :=
| PerformSearch (request_id search_term task : string) (context : Context)
| PerformOrder (restaurant_url item_name task : string) (context : Context).

(** Observable effects, in program order: an assignment
    [search_results[k] = v], a notification sent through a context, and the
    creation of a background task. *)
Inductive Effect : Type :=
| Write (k v : string)
| Notify (context : Context) (n : Notification)
| CreateTask (f : Frame).

(** A coroutine suspended in [await run_browser_agent(...)]: its frame, the
    [nonlocal step_count] of its [step_handler], and what the agent will
    still do. *)
Record Task : Type := {
  frame : Frame;
  step_count : nat;
  agent : Engine
}.

(** What one resumption of a task leaves: the task suspended again, or its
    return value ([None] is Python's [None]). *)
Inductive Resumed : Type :=
| Suspended (t : Task)
| Done (ret : option string).

(** *** String templates (the f-strings of the source) *)

Definition nl : string := String (Ascii.ascii_of_nat 10) EmptyString.
Definition dq : string := String (Ascii.ascii_of_nat 34) EmptyString.

Definition search_task (search_term : string) : string :=
  nl +:+ "0. Start by going to: https://www.ubereats.com" +:+ nl
  +:+ "1. Type " +:+ dq +:+ search_term +:+ dq
  +:+ " in the global search bar and press enter" +:+ nl
  +:+ "2. Go to the first search result (this is the most popular restaurant)." +:+ nl
  +:+ "3. When you can see the menu options for the resturant, we need to use the specific search input for the resturant located under the banned (identify it by the placeholder "
  +:+ dq +:+ "Search in [restaurant name]" +:+ dq +:+ nl
  +:+ "4. Click the input field and type " +:+ dq +:+ search_term +:+ dq
  +:+ ", then press enter" +:+ nl
  +:+ "5. Check for menu options related to " +:+ dq +:+ search_term +:+ dq +:+ nl
  +:+ "6. Get the name, url and price of the top 3 items related to "
  +:+ dq +:+ search_term +:+ dq +:+ ". URL is very important" +:+ nl.

Definition order_task (item_url : string) : string :=
  nl +:+ "1. Go to " +:+ item_url +:+ nl
  +:+ "2. Click " +:+ dq +:+ "Add to order" +:+ dq +:+ nl
  +:+ "3. Wait 3 seconds" +:+ nl
  +:+ "4. Click " +:+ dq +:+ "Go to checkout" +:+ dq +:+ nl
  +:+ "5. If there are upsell modals, click " +:+ dq +:+ "Skip" +:+ dq +:+ nl
  +:+ "6. Click " +:+ dq +:+ "Place order" +:+ dq +:+ nl.

(** The marker [find_menu_options] stores before the search has finished. *)
Definition in_progress (search_term : string) : string :=
  "Search for '" +:+ search_term +:+ "' in progress. Check back in 30 seconds".

Definition search_started (search_term rid : string) : string :=
  "Search for '" +:+ search_term
  +:+ "' started. Please wait for 3 minutes, then you can retrieve results using the resource URI: resource://search_results/"
  +:+ rid +:+ ". Use a terminal sleep statement to wait for 2 minutes.".

Definition order_started (item_name : string) : string :=
  "Order for '" +:+ item_name +:+ "' started. Your order is being processed.".

(** The two answers for a request id that is not a key of the store. *)
Definition not_found (request_id : string) : string :=
  "No search results found for request ID: " +:+ request_id.

Definition not_found_by_id (request_id : string) : string :=
  "No search results found for request ID: " +:+ request_id
  +:+ ". Perhaps you need to wait for 2 more minutes before retrieving results, if you already have retried, then the search may have failed.".

(** *** The bodies of [perform_search] and [perform_order] *)

(** The nested [step_handler]: increments the counter, then sends an
    informational message and the counter as progress. *)
Definition step_handler (f : Frame) (step_count : nat) : nat * list Effect :=
  let step_count := S step_count in
  match f with
  | PerformSearch _ _ _ context =>
      (step_count,
       [Notify context (Info ("Step " +:+ pretty step_count +:+ " completed"));
        Notify context (ReportProgress step_count)])
  | PerformOrder _ _ _ context =>
      (step_count,
       [Notify context (Info ("Order step " +:+ pretty step_count +:+ " completed"));
        Notify context (ReportProgress step_count)])
  end.

(** The statements after [result = await run_browser_agent(...)]. *)
Definition on_result (f : Frame) (result : string) : list Effect * option string :=
  match f with
  | PerformSearch request_id _ _ _ =>
      ([Write request_id result], None)
  | PerformOrder _ item_name _ context =>
      ([Notify context
          (Info ("Order for '" +:+ item_name +:+ "' has been placed successfully!"))],
       Some result)
  end.

(** The [except Exception as e] branch, [msg] being [str(e)]. *)
Definition on_exception (f : Frame) (msg : string) : list Effect * option string :=
  match f with
  | PerformSearch request_id search_term _ context =>
      ([Write request_id ("Error: " +:+ msg);
        Notify context
          (Error ("Error searching for '" +:+ search_term +:+ "': " +:+ msg))],
       None)
  | PerformOrder _ item_name _ context =>
      let error_msg := "Error ordering '" +:+ item_name +:+ "': " +:+ msg in
      ([Notify context (Error error_msg)], Some error_msg)
  end.

(** One resumption of a suspended coroutine by the event loop: the agent
    takes its next action. *)
Definition resume (t : Task) : list Effect * Resumed :=
  match agent t with
  | OnStep k =>
      let '(n, effs) := step_handler (frame t) (step_count t) in
      (effs, Suspended {| frame := frame t; step_count := n; agent := k |})
  | Return result =>
      let '(effs, ret) := on_result (frame t) result in (effs, Done ret)
  | Raise msg =>
      let '(effs, ret) := on_exception (frame t) msg in (effs, Done ret)
  end.

(** A coroutine run from a given counter value until it returns. *)
Fixpoint run (f : Frame) (step_count : nat) (e : Engine)
  : list Effect * option string :=
  match e with
  | OnStep k =>
      let '(n, effs) := step_handler f step_count in
      let '(rest, ret) := run f n k in
      ((effs ++ rest)%list, ret)
  | Return result => on_result f result
  | Raise msg => on_exception f msg
  end.

(** [perform_search] and [perform_order] from their first statement
    ([step_count = 0]) to their return, against an agent that behaves as
    [e]. *)
Definition perform_search (request_id search_term task : string)
    (context : Context) (e : Engine) : list Effect * option string :=
  run (PerformSearch request_id search_term task context) 0 e.

Definition perform_order (restaurant_url item_name task : string)
    (context : Context) (e : Engine) : list Effect * option string :=
  run (PerformOrder restaurant_url item_name task context) 0 e.

(** ** The server state *)

(** [search_results] is the module-level dict; [tasks] is the event loop's
    pool of background tasks, keyed by creation number; [trace] records the
    effects performed so far, oldest first. *)
Record State : Type := {
  search_results : gmap string string;
  tasks : gmap nat Task;
  next_task : nat;
  trace : list Effect
}.

(** The state at start-up: [search_results = {}] and nothing scheduled. *)
Definition initial : State :=
  {| search_results := ∅; tasks := ∅; next_task := 0; trace := [] |}.

(** The store after one effect; only an assignment changes it. *)
Definition store_effect (d : gmap string string) (x : Effect)
  : gmap string string :=
  match x with
  | Write k v => <[k := v]> d
  | Notify _ _ | CreateTask _ => d
  end.

Definition store_effects (d : gmap string string) (l : list Effect)
  : gmap string string :=
  foldl store_effect d l.

(** [search_results[k] = v]. *)
Definition setitem (k v : string) (st : State) : State :=
  {| search_results := <[k := v]> (search_results st);
     tasks := tasks st;
     next_task := next_task st;
     trace := (trace st ++ [Write k v])%list |}.

(** [asyncio.create_task(coro)]: the coroutine is put in the pool, not run;
    the task object is dropped by the caller. *)
Definition create_task (f : Frame) (e : Engine) (st : State) : State :=
  {| search_results := search_results st;
     tasks := <[next_task st := {| frame := f; step_count := 0; agent := e |}]>
                (tasks st);
     next_task := S (next_task st);
     trace := (trace st ++ [CreateTask f])%list |}.

(** ** The tools and the resource *)

Definition find_menu_options (search_term : string) (context : Context)
    (e : Engine) (st : State) : string * State :=
  let task := search_task search_term in
  let st := setitem (request_id context) (in_progress search_term) st in
  let st :=
    create_task (PerformSearch (request_id context) search_term task context)
      e st in
  (search_started search_term (request_id context), st).

Definition order_food (item_url item_name : string) (context : Context)
    (e : Engine) (st : State) : string * State :=
  let task := order_task item_url in
  let st := create_task (PerformOrder item_url item_name task context) e st in
  (order_started item_name, st).

(** The resource [resource://search_results/{request_id}]. *)
Definition get_search_results (request_id : string) (st : State)
  : PyResult string :=
  if not_in request_id (search_results st)
  then Returned (not_found request_id)
  else getitem (search_results st) request_id.

Definition get_search_results_by_id (request_id : string) (st : State)
  : PyResult string :=
  if not_in request_id (search_results st)
  then Returned (not_found_by_id request_id)
  else getitem (search_results st) request_id.

Definition get_all_search_results (st : State) : gmap string string :=
  search_results st.

(** The event loop resumes the pooled task [tid] for one step; its effects
    reach the store and the trace, and a finished task leaves the pool (its
    return value goes to nobody).  Nothing happens when [tid] is not in the
    pool. *)
Definition resume_task (tid : nat) (st : State) : State :=
  match tasks st !! tid with
  | None => st
  | Some t =>
      let '(effs, r) := resume t in
      {| search_results := store_effects (search_results st) effs;
         tasks := match r with
                  | Suspended t' => <[tid := t']> (tasks st)
                  | Done _ => delete tid (tasks st)
                  end;
         next_task := next_task st;
         trace := (trace st ++ effs)%list |}
  end.

(** ** Histories *)

(** What can happen to the server: a tool or resource request arrives, or
    the event loop resumes a background task. *)
Inductive Event : Type :=
| CallFindMenuOptions (search_term : string) (context : Context) (e : Engine)
| CallOrderFood (item_url item_name : string) (context : Context) (e : Engine)
| ReadSearchResults (request_id : string)
| CallGetSearchResultsById (request_id : string)
| CallGetAllSearchResults
| Loop (tid : nat).

(** What the server answers: the string of a tool or of the resource (or
    the exception it raises), the dict of [get_all_search_results], or
    nothing when the event is a move of the event loop. *)
Inductive Reply : Type :=
| Text (r : PyResult string)
| Mapping (d : gmap string string)
| NoReply.

Definition handle (st : State) (ev : Event) : Reply * State :=
  match ev with
  | CallFindMenuOptions search_term context e =>
      let r := find_menu_options search_term context e st in
      (Text (Returned (fst r)), snd r)
  | CallOrderFood item_url item_name context e =>
      let r := order_food item_url item_name context e st in
      (Text (Returned (fst r)), snd r)
  | ReadSearchResults request_id =>
      (Text (get_search_results request_id st), st)
  | CallGetSearchResultsById request_id =>
      (Text (get_search_results_by_id request_id st), st)
  | CallGetAllSearchResults => (Mapping (get_all_search_results st), st)
  | Loop tid => (NoReply, resume_task tid st)
  end.

Definition step (st : State) (ev : Event) : State := snd (handle st ev).

Definition steps (st : State) (evs : list Event) : State :=
  foldl step st evs.

(** ** Observations on traces and histories *)

(** The assignments to the store in a list of effects. *)
Definition writes (l : list Effect) : list (string * string) :=
  omap (λ x, match x with Write k v => Some (k, v) | _ => None end) l.




Definition error_messages (l : list Effect) : list string :=
  omap (λ x, match x with Notify _ (Error m) => Some m | _ => None end) l.

(** The outcome text a search stores when the agent behaves as [e]. *)
Fixpoint outcome (e : Engine) : string :=
  match e with
  | OnStep k => outcome k
  | Return result => result
  | Raise msg => "Error: " +:+ msg
  end.

(** The request ids submitted through [find_menu_options] in a history. *)
Definition searched (evs : list Event) : gset string :=
  list_to_set
    (omap (λ ev, match ev with
                 | CallFindMenuOptions _ context _ => Some (request_id context)
                 | _ => None
                 end) evs).

(** The request ids submitted through either dispatching tool. *)
Definition submitted (evs : list Event) : gset string :=
  list_to_set
    (omap (λ ev, match ev with
                 | CallFindMenuOptions _ context _
                 | CallOrderFood _ _ context _ => Some (request_id context)
                 | _ => None
                 end) evs).

(** The key a coroutine will assign to, if any. *)
Definition frame_target (f : Frame) : option string :=
  match f with
  | PerformSearch request_id _ _ _ => Some request_id
  | PerformOrder _ _ _ _ => None
  end.

Definition target (t : Task) : option string := frame_target (frame t).

(** The message of the exception that ends the agent's run, if it ends by
    raising. *)
Fixpoint failure (e : Engine) : option string :=
  match e with
  | OnStep k => failure k
  | Return _ => None
  | Raise msg => Some msg
  end.


(** No pooled task of [st] will assign to the key [id]. *)
Definition untargeted (id : string) (st : State) : Prop :=
  map_Forall (λ _ t, target t ≠ Some id) (tasks st).

(** The event is not a search dispatched under the request id [id]. *)
Definition avoids (id : string) (ev : Event) : Prop :=
  match ev with
  | CallFindMenuOptions _ context _ => request_id context ≠ id
  | _ => True
  end.

(** Only order coroutines are in flight. *)
Definition only_orders (st : State) : Prop :=
  map_Forall (λ _ t, target t = None) (tasks st).

(** The event is not a call of [find_menu_options]. *)
Definition no_search (ev : Event) : Prop :=
  match ev with
  | CallFindMenuOptions _ _ _ => False
  | _ => True
  end.

(** A search [term], under the request id [k], with an agent whose outcome
    is [o], was dispatched in the history [evs]. *)
Definition dispatched (evs : list Event) (k term o : string) : Prop :=
  ∃ context e,
    CallFindMenuOptions term context e ∈ evs
    ∧ request_id context = k ∧ outcome e = o.

(** A pooled search comes from a dispatch of the history. *)
Definition origin (evs : list Event) (t : Task) : Prop :=
  match frame t with
  | PerformSearch rid term _ _ => dispatched evs rid term (outcome (agent t))
  | PerformOrder _ _ _ _ => True
  end.

(** What holds of the state reached from start-up by the history [evs]:
    the keys of the store are the searched request ids, every pooled search
    was dispatched, every stored text is the marker or the outcome of a
    dispatched search under that id, and the store is the replay of the
    assignments in the trace. *)
Definition consistent (evs : list Event) (st : State) : Prop :=
  dom (search_results st) = searched evs
  ∧ map_Forall (λ _, origin evs) (tasks st)
  ∧ (∀ k v, search_results st !! k = Some v →
       ∃ term o, dispatched evs k term o ∧ (v = in_progress term ∨ v = o))
  ∧ search_results st = store_effects ∅ (trace st).

(** How many times the event loop resumes the task [tid] in a history. *)
Fixpoint resumptions (tid : nat) (evs : list Event) : nat :=
  match evs with
  | [] => 0
  | Loop i :: evs =>
      (if decide (i = tid) then 1 else 0) + resumptions tid evs
  | _ :: evs => resumptions tid evs
  end.

(** Task numbers in the pool are below the next number to be given out. *)
Definition pool_bounded (st : State) : Prop :=
  map_Forall (λ i _, i < next_task st) (tasks st).

(** The task [tid] is the only pooled task that assigns to the key [id]. *)
Definition sole_writer (id : string) (tid : nat) (st : State) : Prop :=
  map_Forall (λ i t, target t = Some id → i = tid) (tasks st).

(** ** The login check *)

(** [check_login_status] and [perform_check_login_status] are defined next
    to the tools but not registered as one.  The coroutine takes only the
    context; it has its own task text and its own [step_handler]. *)

Definition login_task : string :=
  nl +:+ "1. Go to https://www.ubereats.com" +:+ nl
  +:+ "2. Check if the user is logged in by looking if the log in and sign up button are visible in the top right corner of the page" +:+ nl
  +:+ "3. If the user is logged in, return " +:+ dq +:+ "User is logged in" +:+ dq +:+ nl
  +:+ "4. If the user is not logged in, return " +:+ dq +:+ "User is not logged in" +:+ dq +:+ nl.

Definition login_step_handler (context : Context) (step_count : nat)
  : nat * list Effect :=
  let step_count := S step_count in
  (step_count,
   [Notify context
      (Info ("Login status check step " +:+ pretty step_count +:+ " completed"));
    Notify context (ReportProgress step_count)]).

(** The coroutine from a given counter value to its return: [return result]
    after the agent returns, and in the [except] branch only
    [return f"Error checking login status: {str(e)}"]. *)
Fixpoint run_login (context : Context) (step_count : nat) (e : Engine)
  : list Effect * option string :=
  match e with
  | OnStep k =>
      let '(n, effs) := login_step_handler context step_count in
      let '(rest, ret) := run_login context n k in
      ((effs ++ rest)%list, ret)
  | Return result => ([], Some result)
  | Raise msg => ([], Some ("Error checking login status: " +:+ msg))
  end.

Definition perform_check_login_status (context : Context) (e : Engine)
  : list Effect * option string :=
  run_login context 0 e.

(** [check_login_status]: the acknowledgement, and the coroutine handed to
    [asyncio.create_task], given by what it will do once the loop runs it. *)
Definition check_login_status (context : Context) (e : Engine)
  : string * (list Effect * option string) :=
  ("Checking login status...", perform_check_login_status context e).

(** ** Logging filters *)

(** A log record, as far as the filter reads it. *)
Record LogRecord : Type := { getMessage : string }.

(** [s.startswith(prefix)]. *)
Definition startswith (s prefix : string) : bool := String.prefix prefix s.

Module PatternFilter.

Record t : Type := { pattern : string }.

(** [False] drops the record, [True] lets it through. *)
Definition filter (self : t) (record : LogRecord) : bool :=
  negb (startswith (getMessage record) (pattern self)).

End PatternFilter.

Definition info_filter : PatternFilter.t :=
  {| PatternFilter.pattern := "INFO [" |}.

Definition warning_filter : PatternFilter.t :=
  {| PatternFilter.pattern := "WARNING [" |}.

(** [logger.addFilter(f)] for a filter object not yet attached (the two
    filter objects of the module are distinct, and each is attached to a
    logger once). *)
Definition addFilter (f : PatternFilter.t) (filters : list PatternFilter.t)
  : list PatternFilter.t :=
  (filters ++ [f])%list.

(** The filters attached to the three loggers the module configures. *)
Definition info_logger : list PatternFilter.t := addFilter info_filter [].

Definition warning_logger : list PatternFilter.t :=
  addFilter warning_filter [].

Definition root_logger : list PatternFilter.t :=
  addFilter warning_filter (addFilter info_filter []).

(** A logger lets a record through when every attached filter does. *)
Definition logger_filter (filters : list PatternFilter.t) (record : LogRecord)
  : bool :=
  forallb (λ f, PatternFilter.filter f record) filters.

(** ** More observations *)

(** The two effects of one invocation of a [step_handler] whose message
    begins with [label], at counter value [k]. *)
Definition step_effects (context : Context) (label : string) (k : nat)
  : list Effect :=
  [Notify context (Info (label +:+ pretty k +:+ " completed"));
   Notify context (ReportProgress k)].

(** The request ids of the searches dispatched in a history, in order and
    with repetitions. *)
Definition search_ids (evs : list Event) : list string :=
  omap (λ ev, match ev with
              | CallFindMenuOptions _ context _ => Some (request_id context)
              | _ => None
              end) evs.

(** The coroutines the dispatches of a history create, in order. *)
Definition dispatches (evs : list Event) : list Frame :=
  omap (λ ev, match ev with
              | CallFindMenuOptions search_term context _ =>
                  Some (PerformSearch (request_id context) search_term
                          (search_task search_term) context)
              | CallOrderFood item_url item_name context _ =>
                  Some (PerformOrder item_url item_name (order_task item_url)
                          context)
              | _ => None
              end) evs.

(** The task creations in a list of effects. *)
Definition created (l : list Effect) : list Frame :=
  omap (λ x, match x with CreateTask f => Some f | _ => None end) l.

(** The agent after [m] of its callbacks. *)
Fixpoint after (m : nat) (e : Engine) : Engine :=
  match m, e with
  | S m', OnStep k => after m' k
  | _, _ => e
  end.

(** Every dispatched search of the history either still has a pooled task
    or has its own agent's outcome in the store. *)
Definition settled (evs : list Event) (st : State) : Prop :=
  ∀ term context e,
    CallFindMenuOptions term context e ∈ evs →
    (∃ i t, tasks st !! i = Some t ∧ target t = Some (request_id context))
    ∨ search_results st !! request_id context = Some (outcome e).

(** ** Sample inputs *)

Definition ctx1 : Context := {| request_id := "req-1" |}.
Definition ctx2 : Context := {| request_id := "req-2" |}.

Definition pizza_url : string := "https://www.ubereats.com/store/pizzeria/item-7".

(** An agent that reports two steps and returns a menu. *)
Definition agent_ok : Engine := OnStep (OnStep (Return "Margherita 9.50")).

(** An agent that reports one step and then fails. *)
Definition agent_timeout : Engine := OnStep (Raise "navigation timeout").

(** ** Small tests of the model *)

Example pretty_check : pretty 12 = "12".
Proof. reflexivity. Qed.

Example search_round_trip :
  get_search_results_by_id "r"
    (steps initial
       [CallFindMenuOptions "pizza" {| request_id := "r" |}
          (OnStep (Return "ok"));
        Loop 0; Loop 0])
  = Returned "ok".
Proof. vm_compute. reflexivity. Qed.

(** ** One execution of a coroutine *)

Lemma run_OnStep f n k :
  run f n (OnStep k)
  = ((snd (step_handler f n) ++ fst (run f (S n) k))%list,
     snd (run f (S n) k)).
Proof.
  simpl. destruct f; simpl; destruct (run _ (S n) k); reflexivity.
Qed.

Lemma writes_app l1 l2 : writes (l1 ++ l2) = (writes l1 ++ writes l2)%list.
Proof. apply omap_app. Qed.




Lemma writes_step_handler f n : writes (snd (step_handler f n)) = [].
Proof. destruct f; reflexivity. Qed.


(** A search assigns to the store once, at its very end. *)
Lemma writes_run_search rid term task ctx n e :
  writes (fst (run (PerformSearch rid term task ctx) n e)) = [(rid, outcome e)].
Proof.
  revert n. induction e as [k IH | result | msg]; intros n.
  - rewrite run_OnStep. cbn [fst]. rewrite writes_app, writes_step_handler.
    apply IH.
  - reflexivity.
  - reflexivity.
Qed.

(** An order never assigns to the store. *)
Lemma writes_run_order url name task ctx n e :
  writes (fst (run (PerformOrder url name task ctx) n e)) = [].
Proof.
  revert n. induction e as [k IH | result | msg]; intros n.
  - rewrite run_OnStep. cbn [fst]. rewrite writes_app, writes_step_handler.
    apply IH.
  - reflexivity.
  - reflexivity.
Qed.


(** The store after a whole run: one assignment under the target. *)
Lemma store_run f n e d :
  store_effects d (fst (run f n e))
  = match frame_target f with
    | Some k => <[k := outcome e]> d
    | None => d
    end.
Proof.
  revert n. induction e as [k IH | result | msg]; intros n.
  - rewrite run_OnStep. cbn [fst].
    unfold store_effects in *. rewrite foldl_app.
    replace (foldl store_effect d (snd (step_handler f n))) with d
      by (destruct f; reflexivity).
    apply IH.
  - destruct f; reflexivity.
  - destruct f; reflexivity.
Qed.


(** ** One resumption *)

Lemma store_effects_app d l1 l2 :
  store_effects d (l1 ++ l2) = store_effects (store_effects d l1) l2.
Proof. apply foldl_app. Qed.

Lemma steps_app st evs1 evs2 :
  steps st (evs1 ++ evs2) = steps (steps st evs1) evs2.
Proof. apply foldl_app. Qed.

Lemma resume_frame t effs t' :
  resume t = (effs, Suspended t') → frame t' = frame t.
Proof.
  destruct t as [f n e]. unfold resume. cbn [agent frame step_count].
  destruct e as [k | result | msg].
  - destruct (step_handler f n) as [m l]. intros [= _ <-]. reflexivity.
  - destruct (on_result f result). discriminate.
  - destruct (on_exception f msg). discriminate.
Qed.

Lemma resume_outcome t effs t' :
  resume t = (effs, Suspended t') → outcome (agent t') = outcome (agent t).
Proof.
  destruct t as [f n e]. unfold resume. cbn [agent frame step_count].
  destruct e as [k | result | msg].
  - destruct (step_handler f n) as [m l]. intros [= _ <-]. reflexivity.
  - destruct (on_result f result). discriminate.
  - destruct (on_exception f msg). discriminate.
Qed.

(** What a resumption does to the store: nothing while the agent goes on,
    and one assignment under the task's target when the agent ends. *)
Lemma resume_store t d :
  store_effects d (fst (resume t))
  = match agent t, target t with
    | OnStep _, _ | _, None => d
    | e, Some k => <[k := outcome e]> d
    end.
Proof.
  destruct t as [f n e]. unfold resume, target, frame_target.
  cbn [agent frame step_count].
  destruct e as [k | result | msg]; destruct f; reflexivity.
Qed.

Lemma resume_store_other t d id :
  target t ≠ Some id → store_effects d (fst (resume t)) !! id = d !! id.
Proof.
  intros Hne. rewrite resume_store.
  destruct (agent t), (target t) as [k|]; try reflexivity;
    apply lookup_insert_ne; congruence.
Qed.

Lemma resume_store_order t d :
  target t = None → store_effects d (fst (resume t)) = d.
Proof.
  intros Hnone. rewrite resume_store, Hnone. destruct (agent t); reflexivity.
Qed.

Lemma resume_task_Some tid st t :
  tasks st !! tid = Some t →
  resume_task tid st
  = {| search_results := store_effects (search_results st) (fst (resume t));
       tasks := match snd (resume t) with
                | Suspended t' => <[tid := t']> (tasks st)
                | Done _ => delete tid (tasks st)
                end;
       next_task := next_task st;
       trace := (trace st ++ fst (resume t))%list |}.
Proof.
  intros Ht. unfold resume_task. rewrite Ht.
  destruct (resume t) as [effs r]. reflexivity.
Qed.

Lemma resume_task_None tid st :
  tasks st !! tid = None → resume_task tid st = st.
Proof. intros Ht. unfold resume_task. rewrite Ht. reflexivity. Qed.

Lemma steps_cons st ev evs : steps st (ev :: evs) = steps (step st ev) evs.
Proof. reflexivity. Qed.

Lemma steps_snoc st evs ev : steps st (evs ++ [ev]) = step (steps st evs) ev.
Proof. unfold steps. rewrite foldl_app. reflexivity. Qed.

(** A property of frames that holds of the whole pool holds of it after a
    resumption. *)
Lemma resume_task_pool (P : Task → Prop) tid st :
  (∀ t effs t', resume t = (effs, Suspended t') → P t → P t') →
  map_Forall (λ _, P) (tasks st) →
  map_Forall (λ _, P) (tasks (resume_task tid st)).
Proof.
  intros Hstep Hall.
  destruct (tasks st !! tid) as [t|] eqn:Ht.
  - rewrite (resume_task_Some _ _ _ Ht). cbn [tasks].
    destruct (resume t) as [effs [t'|ret]] eqn:Hr; cbn [snd].
    + apply map_Forall_insert_2; [|exact Hall].
      eapply Hstep; [exact Hr|]. exact (Hall _ _ Ht).
    + apply map_Forall_delete. exact Hall.
  - rewrite (resume_task_None _ _ Ht). exact Hall.
Qed.


(** ** Histories: what leaves a key alone *)

Lemma step_stable id st ev :
  untargeted id st → avoids id ev →
  search_results (step st ev) !! id = search_results st !! id
  ∧ untargeted id (step st ev).
Proof.
  intros Hpool Hev. destruct ev as [term ctx e | url name ctx e | | | | tid];
    cbn [step handle find_menu_options order_food snd]; try (split; [reflexivity|exact Hpool]).
  - cbn in Hev. split.
    + cbn. apply lookup_insert_ne. exact Hev.
    + unfold untargeted. cbn. apply map_Forall_insert_2; [|exact Hpool].
      cbn. congruence.
  - split; [reflexivity|].
    unfold untargeted. cbn. apply map_Forall_insert_2; [|exact Hpool].
    cbn. discriminate.
  - split.
    + destruct (tasks st !! tid) as [t|] eqn:Ht.
      * rewrite (resume_task_Some _ _ _ Ht). cbn [search_results].
        apply resume_store_other. exact (Hpool _ _ Ht).
      * rewrite (resume_task_None _ _ Ht). reflexivity.
    + apply (resume_task_pool (λ t, target t ≠ Some id)); [|exact Hpool].
      intros t effs t' Hr Ht. unfold target in *.
      rewrite (resume_frame _ _ _ Hr). exact Ht.
Qed.

Lemma steps_stable id evs : ∀ st,
  untargeted id st → Forall (avoids id) evs →
  search_results (steps st evs) !! id = search_results st !! id.
Proof.
  induction evs as [|ev evs IH]; intros st Hpool Hevs; [reflexivity|].
  apply Forall_cons in Hevs as [Hev Hevs].
  destruct (step_stable id st ev Hpool Hev) as [Hst Hpool'].
  rewrite steps_cons, IH by assumption. exact Hst.
Qed.

Lemma step_only_orders st ev :
  only_orders st → no_search ev →
  search_results (step st ev) = search_results st ∧ only_orders (step st ev).
Proof.
  intros Hpool Hev. destruct ev as [term ctx e | url name ctx e | | | | tid];
    cbn [step handle order_food snd]; try (split; [reflexivity|exact Hpool]).
  - destruct Hev.
  - split; [reflexivity|].
    unfold only_orders. cbn. apply map_Forall_insert_2; [|exact Hpool].
    reflexivity.
  - split.
    + destruct (tasks st !! tid) as [t|] eqn:Ht.
      * rewrite (resume_task_Some _ _ _ Ht). cbn [search_results].
        apply resume_store_order. exact (Hpool _ _ Ht).
      * rewrite (resume_task_None _ _ Ht). reflexivity.
    + apply (resume_task_pool (λ t, target t = None)); [|exact Hpool].
      intros t effs t' Hr Ht. unfold target in *.
      rewrite (resume_frame _ _ _ Hr). exact Ht.
Qed.

Lemma steps_only_orders evs : ∀ st,
  only_orders st → Forall no_search evs →
  search_results (steps st evs) = search_results st.
Proof.
  induction evs as [|ev evs IH]; intros st Hpool Hevs; [reflexivity|].
  apply Forall_cons in Hevs as [Hev Hevs].
  destruct (step_only_orders st ev Hpool Hev) as [Hst Hpool'].
  rewrite steps_cons, IH by assumption. exact Hst.
Qed.

(** Keys are never removed from the store. *)
Lemma step_dom st ev :
  dom (search_results st) ⊆ dom (search_results (step st ev)).
Proof.
  destruct ev as [term ctx e | url name ctx e | | | | i];
    cbn [step handle find_menu_options order_food snd]; try reflexivity.
  - cbn. rewrite dom_insert_L. apply union_subseteq_r.
  - destruct (tasks st !! i) as [t|] eqn:Ht.
    + rewrite (resume_task_Some _ _ _ Ht). cbn [search_results].
      rewrite resume_store.
      destruct (agent t), (target t); try reflexivity;
        rewrite dom_insert_L; apply union_subseteq_r.
    + rewrite (resume_task_None _ _ Ht). reflexivity.
Qed.

Lemma steps_dom evs : ∀ st,
  dom (search_results st) ⊆ dom (search_results (steps st evs)).
Proof.
  induction evs as [|ev evs IH]; intros st; [reflexivity|].
  rewrite steps_cons. etrans; [apply step_dom|apply IH].
Qed.

(** ** Histories: a task among others *)

Lemma resume_task_lookup i j st t' :
  tasks (resume_task i st) !! j = Some t' →
  ∃ t, tasks st !! j = Some t ∧ frame t' = frame t.
Proof.
  destruct (tasks st !! i) as [t|] eqn:Ht.
  - rewrite (resume_task_Some _ _ _ Ht). cbn [tasks].
    destruct (resume t) as [effs [t1|ret]] eqn:Hr; cbn [snd].
    + destruct (decide (i = j)) as [->|Hne].
      * rewrite lookup_insert_eq. intros [= <-]. exists t.
        split; [exact Ht|]. exact (resume_frame _ _ _ Hr).
      * rewrite lookup_insert_ne by exact Hne. intros Hj. exists t'. auto.
    + intros Hj. apply lookup_delete_Some in Hj as [_ Hj]. exists t'. auto.
  - rewrite (resume_task_None _ _ Ht). intros Hj. exists t'. auto.
Qed.

Lemma resume_task_next i st : next_task (resume_task i st) = next_task st.
Proof.
  unfold resume_task. destruct (tasks st !! i) as [t|]; [|reflexivity].
  destruct (resume t). reflexivity.
Qed.

Lemma step_pool_bounded st ev :
  pool_bounded st →
  pool_bounded (step st ev) ∧ (next_task st ≤ next_task (step st ev))%nat.
Proof.
  intros Hb. destruct ev as [term ctx e | url name ctx e | | | | i];
    cbn [step handle find_menu_options order_food snd]; try (split; [exact Hb|lia]).
  - split; [|cbn; lia]. unfold pool_bounded. cbn.
    apply map_Forall_insert_2; [lia|].
    intros j t Hj. specialize (Hb _ _ Hj). cbn in Hb. lia.
  - split; [|cbn; lia]. unfold pool_bounded. cbn.
    apply map_Forall_insert_2; [lia|].
    intros j t Hj. specialize (Hb _ _ Hj). cbn in Hb. lia.
  - rewrite resume_task_next. split; [|lia].
    intros j t' Hj. rewrite resume_task_next.
    destruct (resume_task_lookup _ _ _ _ Hj) as (t & Ht & _).
    exact (Hb _ _ Ht).
Qed.

Lemma step_sole_writer id tid st ev :
  sole_writer id tid st → avoids id ev → sole_writer id tid (step st ev).
Proof.
  intros Hw Hev. destruct ev as [term ctx e | url name ctx e | | | | i];
    cbn [step handle find_menu_options order_food snd]; try exact Hw.
  - unfold sole_writer. cbn. apply map_Forall_insert_2; [|exact Hw].
    cbn in Hev. unfold target. cbn. congruence.
  - unfold sole_writer. cbn. apply map_Forall_insert_2; [|exact Hw].
    unfold target. cbn. discriminate.
  - intros j t' Hj Htarget.
    destruct (resume_task_lookup _ _ _ _ Hj) as (t & Ht & Hf).
    apply (Hw _ _ Ht). unfold target in *. rewrite <- Hf. exact Htarget.
Qed.

(** Events other than its own resumption leave a pooled task as it is. *)
Lemma step_keeps_task tid st t ev :
  tasks st !! tid = Some t → pool_bounded st → resumptions tid [ev] = 0 →
  tasks (step st ev) !! tid = Some t.
Proof.
  intros Ht Hb Hev. assert (Hlt := Hb _ _ Ht). cbn in Hlt.
  destruct ev as [term ctx e | url name ctx e | | | | i];
    cbn [step handle find_menu_options order_food snd]; try exact Ht.
  - cbn. rewrite lookup_insert_ne by lia. exact Ht.
  - cbn. rewrite lookup_insert_ne by lia. exact Ht.
  - cbn in Hev. destruct (decide (i = tid)) as [|Hne]; [discriminate|].
    destruct (tasks st !! i) as [ti|] eqn:Hi.
    + rewrite (resume_task_Some _ _ _ Hi). cbn [tasks].
      destruct (snd (resume ti)).
      * rewrite lookup_insert_ne by exact Hne. exact Ht.
      * rewrite lookup_delete_ne by exact Hne. exact Ht.
    + rewrite (resume_task_None _ _ Hi). exact Ht.
Qed.



(** ** Histories from start-up *)

Lemma searched_snoc evs ev :
  searched (evs ++ [ev])
  = searched evs ∪ match ev with
                   | CallFindMenuOptions _ context _ => {[request_id context]}
                   | _ => ∅
                   end.
Proof.
  unfold searched. rewrite omap_app, list_to_set_app_L. f_equal.
  destruct ev; cbn; [apply (right_id_L ∅ (∪))|reflexivity..].
Qed.

Lemma searched_submitted evs : searched evs ⊆ submitted evs.
Proof.
  intros k. unfold searched, submitted.
  rewrite !elem_of_list_to_set, !list_elem_of_omap.
  intros (ev & Hin & Hev). exists ev. split; [exact Hin|].
  destruct ev; try discriminate. exact Hev.
Qed.

Lemma dispatched_snoc evs ev k term o :
  dispatched evs k term o → dispatched (evs ++ [ev]) k term o.
Proof.
  intros (ctx & e & Hin & Hk & Ho). exists ctx, e.
  split; [|split; assumption]. apply elem_of_app. left. exact Hin.
Qed.

Lemma dispatched_searched evs k term o :
  dispatched evs k term o → k ∈ searched evs.
Proof.
  intros (ctx & e & Hin & Hk & Ho). unfold searched.
  apply elem_of_list_to_set, list_elem_of_omap.
  exists (CallFindMenuOptions term ctx e). split; [exact Hin|].
  cbn. congruence.
Qed.

Lemma origin_snoc evs ev t : origin evs t → origin (evs ++ [ev]) t.
Proof.
  unfold origin. destruct (frame t); [apply dispatched_snoc|trivial].
Qed.

Lemma consistent_initial : consistent [] initial.
Proof.
  split; [|split; [|split]].
  - apply dom_empty_L.
  - apply map_Forall_empty.
  - intros k v Hk. cbn in Hk. rewrite lookup_empty in Hk. discriminate.
  - reflexivity.
Qed.

Lemma consistent_weaken evs ev st :
  consistent evs st →
  searched (evs ++ [ev]) = searched evs →
  consistent (evs ++ [ev]) st.
Proof.
  intros (Hdom & Hpool & Hval & Htr) Hs. split; [|split; [|split]].
  - congruence.
  - intros tid t Ht. apply origin_snoc. exact (Hpool _ _ Ht).
  - intros k v Hk. destruct (Hval _ _ Hk) as (term & o & Hd & Hv).
    exists term, o. split; [apply dispatched_snoc; exact Hd|exact Hv].
  - exact Htr.
Qed.

Lemma consistent_resume evs tid st :
  consistent evs st → consistent evs (resume_task tid st).
Proof.
  intros (Hdom & Hpool & Hval & Htr).
  destruct (tasks st !! tid) as [t|] eqn:Ht.
  2:{ rewrite (resume_task_None _ _ Ht). repeat split; assumption. }
  assert (Hstore : search_results (resume_task tid st)
                   = store_effects (search_results st) (fst (resume t))).
  { rewrite (resume_task_Some _ _ _ Ht). reflexivity. }
  assert (Ho := Hpool _ _ Ht). unfold origin in Ho.
  split; [|split; [|split]].
  - rewrite Hstore, resume_store, <- Hdom. unfold target, frame_target.
    destruct (frame t) as [rid term task ctx|]; [|destruct (agent t); reflexivity].
    apply dispatched_searched in Ho. rewrite <- Hdom in Ho.
    destruct (agent t); [reflexivity|..];
      rewrite dom_insert_L; apply subseteq_union_1_L, singleton_subseteq_l, Ho.
  - apply (resume_task_pool (origin evs)); [|exact Hpool].
    intros t0 effs t' Hr Ht0. unfold origin in *.
    rewrite (resume_frame _ _ _ Hr), (resume_outcome _ _ _ Hr). exact Ht0.
  - intros k v. rewrite Hstore, resume_store. unfold target, frame_target.
    destruct (frame t) as [rid term task ctx|];
      [|destruct (agent t); apply Hval].
    destruct (agent t) as [e|result|msg] eqn:He; [apply Hval|..];
      (destruct (decide (rid = k)) as [->|Hne];
       [rewrite lookup_insert_eq; intros [= <-]; exists term; eexists;
        split; [exact Ho|right; reflexivity]
       |rewrite lookup_insert_ne by exact Hne; apply Hval]).
  - rewrite Hstore, (resume_task_Some _ _ _ Ht). cbn [trace].
    rewrite store_effects_app, <- Htr. reflexivity.
Qed.

Lemma consistent_step evs st ev :
  consistent evs st → consistent (evs ++ [ev]) (step st ev).
Proof.
  intros Hst. assert (Hst' := Hst). destruct Hst' as (Hdom & Hpool & Hval & Htr).
  destruct ev as [term ctx e | url name ctx e | id | id | | tid];
    cbn [step handle snd].
  - assert (Hnew : dispatched
              (evs ++ [CallFindMenuOptions term ctx e]) (request_id ctx) term
              (outcome e)).
    { exists ctx, e. split; [|split; reflexivity].
      apply elem_of_app. right. apply list_elem_of_singleton. reflexivity. }
    split; [|split; [|split]].
    + cbn. rewrite dom_insert_L, searched_snoc, Hdom.
      apply (comm_L (∪)).
    + cbn. apply map_Forall_insert_2.
      * exact Hnew.
      * intros tid t Ht. apply origin_snoc. exact (Hpool _ _ Ht).
    + cbn. intros k v.
      destruct (decide (request_id ctx = k)) as [<-|Hne].
      * rewrite lookup_insert_eq. intros [= <-].
        exists term, (outcome e). split; [exact Hnew|left; reflexivity].
      * rewrite lookup_insert_ne by exact Hne. intros Hk.
        destruct (Hval _ _ Hk) as (term' & o & Hd & Hv).
        exists term', o. split; [apply dispatched_snoc; exact Hd|exact Hv].
    + cbn. rewrite !store_effects_app, <- Htr. reflexivity.
  - split; [|split; [|split]].
    + cbn. rewrite searched_snoc, Hdom. symmetry. apply (right_id_L ∅ (∪)).
    + cbn. apply map_Forall_insert_2; [exact I|].
      intros tid t Ht. apply origin_snoc. exact (Hpool _ _ Ht).
    + cbn. intros k v Hk. destruct (Hval _ _ Hk) as (term' & o & Hd & Hv).
      exists term', o. split; [apply dispatched_snoc; exact Hd|exact Hv].
    + cbn. rewrite store_effects_app, <- Htr. reflexivity.
  - apply consistent_weaken; [exact Hst|].
    rewrite searched_snoc. apply (right_id_L ∅ (∪)).
  - apply consistent_weaken; [exact Hst|].
    rewrite searched_snoc. apply (right_id_L ∅ (∪)).
  - apply consistent_weaken; [exact Hst|].
    rewrite searched_snoc. apply (right_id_L ∅ (∪)).
  - apply consistent_weaken; [apply consistent_resume; exact Hst|].
    rewrite searched_snoc. apply (right_id_L ∅ (∪)).
Qed.

(** Every state the server can reach from start-up is consistent with the
    history that led to it. *)
Lemma consistent_steps evs : consistent evs (steps initial evs).
Proof.
  induction evs as [|ev evs IH] using rev_ind.
  - apply consistent_initial.
  - rewrite steps_snoc. apply consistent_step. exact IH.
Qed.

(** ** Retrieval *)

(** The guarded lookup of the two retrieval functions never reaches the
    [KeyError] of [getitem]. *)
Lemma get_search_results_lookup id st :
  get_search_results id st
  = Returned (default (not_found id) (search_results st !! id)).
Proof.
  unfold get_search_results, not_in, getitem.
  destruct (search_results st !! id) as [v|]; reflexivity.
Qed.

Lemma get_search_results_by_id_lookup id st :
  get_search_results_by_id id st
  = Returned (default (not_found_by_id id) (search_results st !! id)).
Proof.
  unfold get_search_results_by_id, not_in, getitem.
  destruct (search_results st !! id) as [v|]; reflexivity.
Qed.

(** The texts are told apart by their first character. *)
Lemma in_progress_not_found term id :
  in_progress term ≠ not_found id ∧ in_progress term ≠ not_found_by_id id.
Proof. split; discriminate. Qed.

Lemma error_not_in_progress msg term : "Error: " +:+ msg ≠ in_progress term.
Proof. discriminate. Qed.

Lemma error_not_found msg id :
  not_found id ≠ "Error: " +:+ msg ∧ not_found_by_id id ≠ "Error: " +:+ msg.
Proof. split; discriminate. Qed.


(** The value [perform_order] returns: the agent's text, or the error
    message it also sends. *)
Lemma return_run_order url name task ctx n e :
  snd (run (PerformOrder url name task ctx) n e)
  = Some match failure e with
         | Some msg => "Error ordering '" +:+ name +:+ "': " +:+ msg
         | None => outcome e
         end.
Proof.
  revert n. induction e as [k IH | result | msg]; intros n.
  - rewrite run_OnStep. cbn [snd]. apply IH.
  - reflexivity.
  - reflexivity.
Qed.

Lemma error_messages_app l1 l2 :
  error_messages (l1 ++ l2) = (error_messages l1 ++ error_messages l2)%list.
Proof. apply omap_app. Qed.

Lemma error_messages_run_search rid term task ctx n e :
  error_messages (fst (run (PerformSearch rid term task ctx) n e))
  = match failure e with
    | Some msg => ["Error searching for '" +:+ term +:+ "': " +:+ msg]
    | None => []
    end.
Proof.
  revert n. induction e as [k IH | result | msg]; intros n.
  - rewrite run_OnStep. cbn [fst]. rewrite error_messages_app, IH. reflexivity.
  - reflexivity.
  - reflexivity.
Qed.

(** An agent that invokes the callback [c] times and then ends as [e]. *)
Lemma outcome_after_callbacks c e : outcome (Nat.iter c OnStep e) = outcome e.
Proof. induction c as [|c IH]; [reflexivity|exact IH]. Qed.

Lemma failure_after_callbacks c e : failure (Nat.iter c OnStep e) = failure e.
Proof. induction c as [|c IH]; [reflexivity|exact IH]. Qed.

(** ** The task runner writes its outcome *)




(** ** Dispatch *)

(** Counterexample to C2 for [order_food]: right after an order is
    dispatched under a request id, retrieval for that id gives the
    unknown-identity answer, and nothing was written to the store. *)
Lemma C2_counterexample_order_food_no_marker :
  let st := snd (order_food pizza_url "pizza" ctx1 agent_ok initial) in
  get_search_results_by_id (request_id ctx1) st
  = Returned (not_found_by_id (request_id ctx1))
  ∧ writes (trace st) = [].
Proof. split; reflexivity. Qed.

(** C2, for [find_menu_options]: the dispatcher first assigns the
    in-progress marker under the request id and then creates the background
    task; in the state it returns, both retrieval functions answer with the
    marker, which is neither of the unknown-identity texts.  Whatever
    happens afterwards, the request id stays a key of the store, so a
    retrieval returns what is stored under it and never takes the
    unknown-identity branch. *)
Theorem C2_find_menu_options_marks_pending search_term context e st :
  let st1 := snd (find_menu_options search_term context e st) in
  trace st1
  = (trace st
     ++ [Write (request_id context) (in_progress search_term);
         CreateTask (PerformSearch (request_id context) search_term
                       (search_task search_term) context)])%list
  ∧ get_search_results_by_id (request_id context) st1
    = Returned (in_progress search_term)
  ∧ get_search_results (request_id context) st1
    = Returned (in_progress search_term)
  ∧ in_progress search_term ≠ not_found_by_id (request_id context)
  ∧ in_progress search_term ≠ not_found (request_id context)
  ∧ ∀ evs, ∃ v,
      search_results (steps st1 evs) !! request_id context = Some v
      ∧ get_search_results_by_id (request_id context) (steps st1 evs)
        = Returned v
      ∧ get_search_results (request_id context) (steps st1 evs) = Returned v.
Proof.
  cbn zeta. split; [|split; [|split; [|split; [|split]]]].
  - cbn. rewrite <- (assoc (++)). reflexivity.
  - rewrite get_search_results_by_id_lookup. cbn.
    rewrite lookup_insert_eq. reflexivity.
  - rewrite get_search_results_lookup. cbn.
    rewrite lookup_insert_eq. reflexivity.
  - apply in_progress_not_found.
  - apply in_progress_not_found.
  - intros evs.
    assert (Hin : request_id context
                  ∈ dom (search_results
                           (steps (snd (find_menu_options search_term context
                                          e st)) evs))).
    { apply steps_dom. cbn. rewrite dom_insert_L.
      apply elem_of_union_l, elem_of_singleton. reflexivity. }
    apply elem_of_dom in Hin as [v Hv]. exists v.
    rewrite get_search_results_by_id_lookup, get_search_results_lookup, Hv.
    auto.
Qed.

(** ** Bulk retrieval *)

(** Counterexample to C3: a request id submitted through [order_food] is
    not a key of the mapping [get_all_search_results] returns. *)
Lemma C3_counterexample_order_not_a_key :
  dom (get_all_search_results
         (steps initial [CallOrderFood pizza_url "pizza" ctx1 agent_ok]))
  ≠ submitted [CallOrderFood pizza_url "pizza" ctx1 agent_ok].
Proof.
  intros Heq.
  assert (Hin : request_id ctx1
                ∈ submitted [CallOrderFood pizza_url "pizza" ctx1 agent_ok]).
  { unfold submitted. cbn. apply elem_of_union_l, elem_of_singleton.
    reflexivity. }
  rewrite <- Heq in Hin. cbn in Hin. rewrite dom_empty_L in Hin.
  exact (not_elem_of_empty _ Hin).
Qed.

(** C3, for the ids submitted through [find_menu_options]: after
    any history from start-up, the keys of the mapping returned by
    [get_all_search_results] are exactly the request ids under which a
    search was dispatched; each is mapped to the in-progress marker of a
    search dispatched under it or to the outcome of such a search's agent
    (its text, or ["Error: "] and the message); and the mapping is the
    replay of all assignments made so far, the latest one winning. *)
Theorem C3_get_all_keys_are_searched evs :
  let all := get_all_search_results (steps initial evs) in
  dom all = searched evs
  ∧ (∀ k v, all !! k = Some v →
       ∃ term o, dispatched evs k term o ∧ (v = in_progress term ∨ v = o))
  ∧ all = store_effects ∅ (trace (steps initial evs)).
Proof.
  destruct (consistent_steps evs) as (Hdom & _ & Hval & Htr).
  cbn zeta. unfold get_all_search_results. auto.
Qed.

Lemma C3_witness :
  get_all_search_results
    (steps initial
       [CallFindMenuOptions "pizza" ctx1 agent_ok;
        CallOrderFood pizza_url "pizza" ctx2 agent_ok;
        Loop 0; Loop 0; Loop 1; Loop 0])
  !! "req-1" = Some "Margherita 9.50"
  ∧ ∃ term o,
      dispatched
        [CallFindMenuOptions "pizza" ctx1 agent_ok;
         CallOrderFood pizza_url "pizza" ctx2 agent_ok;
         Loop 0; Loop 0; Loop 1; Loop 0]
        "req-1" term o
      ∧ ("Margherita 9.50" = in_progress term ∨ "Margherita 9.50" = o).
Proof.
  assert (Hk : get_all_search_results
                 (steps initial
                    [CallFindMenuOptions "pizza" ctx1 agent_ok;
                     CallOrderFood pizza_url "pizza" ctx2 agent_ok;
                     Loop 0; Loop 0; Loop 1; Loop 0])
               !! "req-1" = Some "Margherita 9.50")
    by (vm_compute; reflexivity).
  split; [exact Hk|].
  exact (proj1 (proj2 (C3_get_all_keys_are_searched _)) _ _ Hk).
Defined.

(** ** Failure of the agent *)

(** Counterexample to C4: a stored failure does not last through every
    later history.  After a search under a request id has failed and
    retrieval returns ["Error: boom"], a second [find_menu_options] under
    the same id makes retrieval return the in-progress marker of the new
    search, which does not contain the message. *)
Lemma C4_counterexample_redispatch_reverts_to_pending :
  let st := steps initial
              [CallFindMenuOptions "pizza" ctx1 (Raise "boom"); Loop 0] in
  get_search_results_by_id "req-1" st = Returned "Error: boom"
  ∧ get_search_results_by_id "req-1"
      (steps st [CallFindMenuOptions "pasta" ctx1 agent_ok])
    = Returned (in_progress "pasta")
  ∧ in_progress "pasta" ≠ "Error: boom".
Proof.
  split; [vm_compute; reflexivity|].
  split; [vm_compute; reflexivity|discriminate].
Qed.

(** C4, while the request id is not reused: when the agent of a search
    raises with message [M], the resumption
    that sees the exception assigns ["Error: M"] under the request id and
    then sends an error notification naming the search term and [M].  From
    then on, through any history in which that id is not dispatched again
    and no other pooled search assigns to it, both retrieval functions
    return ["Error: M"], a text that contains [M] and is no in-progress
    marker.  Seen as one execution: whatever number of callbacks precede the
    exception, [perform_search] makes that one assignment and sends that one
    error notification. *)
Theorem C4_failed_search_is_stored_and_reported
    st tid rid search_term task context n M evs :
  tasks st !! tid
  = Some {| frame := PerformSearch rid search_term task context;
            step_count := n; agent := Raise M |} →
  untargeted rid (resume_task tid st) →
  Forall (avoids rid) evs →
  trace (resume_task tid st)
  = (trace st
     ++ [Write rid ("Error: " +:+ M);
         Notify context
           (Error ("Error searching for '" +:+ search_term +:+ "': " +:+ M))])%list
  ∧ get_search_results_by_id rid (steps (resume_task tid st) evs)
    = Returned ("Error: " +:+ M)
  ∧ get_search_results rid (steps (resume_task tid st) evs)
    = Returned ("Error: " +:+ M)
  ∧ (∀ term, "Error: " +:+ M ≠ in_progress term)
  ∧ ∀ c,
      let effs := fst (perform_search rid search_term task context
                         (Nat.iter c OnStep (Raise M))) in
      writes effs = [(rid, "Error: " +:+ M)]
      ∧ error_messages effs
        = ["Error searching for '" +:+ search_term +:+ "': " +:+ M].
Proof.
  intros Ht Hpool Hevs.
  assert (Hlook : search_results (steps (resume_task tid st) evs) !! rid
                  = Some ("Error: " +:+ M)).
  { rewrite (steps_stable rid evs _ Hpool Hevs).
    rewrite (resume_task_Some _ _ _ Ht). cbn. apply lookup_insert_eq. }
  split; [|split; [|split; [|split]]].
  - rewrite (resume_task_Some _ _ _ Ht). reflexivity.
  - rewrite get_search_results_by_id_lookup, Hlook. reflexivity.
  - rewrite get_search_results_lookup, Hlook. reflexivity.
  - intros term. apply error_not_in_progress.
  - intros c. cbn zeta. unfold perform_search. split.
    + rewrite writes_run_search, outcome_after_callbacks. reflexivity.
    + rewrite error_messages_run_search, failure_after_callbacks. reflexivity.
Qed.

Lemma C4_witness :
  let st := steps initial
              [CallFindMenuOptions "pizza" ctx1 agent_timeout;
               CallFindMenuOptions "sushi" ctx2 agent_ok; Loop 0] in
  let evs := [Loop 1; CallGetSearchResultsById "req-1"; Loop 1; Loop 1;
              CallOrderFood pizza_url "pizza" ctx1 agent_ok; Loop 2] in
  get_search_results_by_id "req-1" (steps (resume_task 0 st) evs)
  = Returned "Error: navigation timeout".
Proof.
  cbn zeta.
  refine (proj1 (proj2
    (C4_failed_search_is_stored_and_reported
       (steps initial
          [CallFindMenuOptions "pizza" ctx1 agent_timeout;
           CallFindMenuOptions "sushi" ctx2 agent_ok; Loop 0])
       0 "req-1" "pizza" (search_task "pizza") ctx1 1 "navigation timeout"
       [Loop 1; CallGetSearchResultsById "req-1"; Loop 1; Loop 1;
        CallOrderFood pizza_url "pizza" ctx1 agent_ok; Loop 2]
       _ _ _))).
  - vm_compute. reflexivity.
  - unfold untargeted. apply (bool_decide_unpack _). vm_compute. exact I.
  - repeat constructor; cbn; discriminate.
Defined.

(** ** Progress *)


(** ** Success of the agent *)

(** Counterexample to C6: a stored result does not last through every
    later history.  After a search under a request id has completed with
    the text ["A"] and retrieval returns it, a second [find_menu_options]
    under the same id makes retrieval return the new in-progress marker;
    and with no later dispatch at all, a second search already in flight
    under the same id replaces ["A"] by its own outcome ["B"] when it
    ends. *)
Lemma C6_counterexample_result_is_replaced :
  (let st := steps initial
               [CallFindMenuOptions "pizza" ctx1 (Return "A"); Loop 0] in
   get_search_results_by_id "req-1" st = Returned "A"
   ∧ get_search_results_by_id "req-1"
       (steps st [CallFindMenuOptions "pasta" ctx1 agent_ok])
     = Returned (in_progress "pasta")
   ∧ in_progress "pasta" ≠ "A")
  ∧ (let st := steps initial
                 [CallFindMenuOptions "pizza" ctx1 (Return "A");
                  CallFindMenuOptions "pasta" ctx1 (Return "B"); Loop 0] in
     get_search_results_by_id "req-1" st = Returned "A"
     ∧ get_search_results_by_id "req-1" (steps st [Loop 1]) = Returned "B").
Proof.
  split.
  - split; [vm_compute; reflexivity|].
    split; [vm_compute; reflexivity|discriminate].
  - split; vm_compute; reflexivity.
Qed.

(** C6, while the request id is not reused: when the agent of a search
    returns the text [T], the resumption
    that receives it assigns [T] under the request id.  From then on,
    through any history in which that id is not dispatched again and no
    other pooled search assigns to it (retrievals of any id, repeated at
    will, included), [get_search_results_by_id] returns exactly [T]; the
    server answers such a call with [T] and stays in the state it was in.  Seen as one execution: whatever
    number of callbacks precede the return, [perform_search] assigns [T]
    under the request id and nothing else. *)
Theorem C6_completed_search_reads_back
    st tid rid search_term task context n T evs :
  tasks st !! tid
  = Some {| frame := PerformSearch rid search_term task context;
            step_count := n; agent := Return T |} →
  untargeted rid (resume_task tid st) →
  Forall (avoids rid) evs →
  get_search_results_by_id rid (resume_task tid st) = Returned T
  ∧ get_search_results_by_id rid (steps (resume_task tid st) evs) = Returned T
  ∧ handle (steps (resume_task tid st) evs) (CallGetSearchResultsById rid)
    = (Text (Returned T), steps (resume_task tid st) evs)
  ∧ ∀ c,
      writes (fst (perform_search rid search_term task context
                     (Nat.iter c OnStep (Return T))))
      = [(rid, T)].
Proof.
  intros Ht Hpool Hevs.
  assert (Hnow : search_results (resume_task tid st) !! rid = Some T).
  { rewrite (resume_task_Some _ _ _ Ht). cbn. apply lookup_insert_eq. }
  assert (Hlater : get_search_results_by_id rid
                     (steps (resume_task tid st) evs) = Returned T).
  { rewrite get_search_results_by_id_lookup.
    rewrite (steps_stable rid evs _ Hpool Hevs), Hnow. reflexivity. }
  split; [|split; [|split]].
  - rewrite get_search_results_by_id_lookup, Hnow. reflexivity.
  - exact Hlater.
  - cbn [handle]. rewrite Hlater. reflexivity.
  - intros c. unfold perform_search.
    rewrite writes_run_search, outcome_after_callbacks. reflexivity.
Qed.

Lemma C6_witness :
  let st := steps initial
              [CallFindMenuOptions "sushi" ctx2 agent_timeout;
               CallFindMenuOptions "pizza" ctx1 agent_ok; Loop 1; Loop 1] in
  let evs := [CallGetSearchResultsById "req-1"; Loop 0;
              CallGetSearchResultsById "req-1"; Loop 0;
              CallGetAllSearchResults] in
  get_search_results_by_id "req-1" (steps (resume_task 1 st) evs)
  = Returned "Margherita 9.50".
Proof.
  cbn zeta.
  refine (proj1 (proj2
    (C6_completed_search_reads_back
       (steps initial
          [CallFindMenuOptions "sushi" ctx2 agent_timeout;
           CallFindMenuOptions "pizza" ctx1 agent_ok; Loop 1; Loop 1])
       1 "req-1" "pizza" (search_task "pizza") ctx1 2 "Margherita 9.50"
       [CallGetSearchResultsById "req-1"; Loop 0;
        CallGetSearchResultsById "req-1"; Loop 0;
        CallGetAllSearchResults]
       _ _ _))).
  - vm_compute. reflexivity.
  - unfold untargeted. apply (bool_decide_unpack _). vm_compute. exact I.
  - repeat constructor; cbn; discriminate.
Defined.

(** ** Unknown request ids *)

(** C7: after any history from start-up in which no dispatch
    ([find_menu_options] or [order_food]) used the request id, both
    retrieval functions return (they do not raise) their unknown-identity
    text for that id; these texts differ from every in-progress marker and
    from every stored error.  In no state and for no id does a retrieval
    function raise. *)
Theorem C7_unknown_id_is_answered evs id :
  id ∉ submitted evs →
  get_search_results id (steps initial evs) = Returned (not_found id)
  ∧ get_search_results_by_id id (steps initial evs)
    = Returned (not_found_by_id id)
  ∧ (∀ term,
       not_found id ≠ in_progress term ∧ not_found_by_id id ≠ in_progress term)
  ∧ (∀ msg,
       not_found id ≠ "Error: " +:+ msg
       ∧ not_found_by_id id ≠ "Error: " +:+ msg)
  ∧ ∀ id' st exc,
      get_search_results id' st ≠ Raised exc
      ∧ get_search_results_by_id id' st ≠ Raised exc.
Proof.
  intros Hid.
  assert (Hnone : search_results (steps initial evs) !! id = None).
  { apply not_elem_of_dom.
    destruct (consistent_steps evs) as (Hdom & _). rewrite Hdom.
    intros Hin. apply Hid, searched_submitted, Hin. }
  split; [|split; [|split; [|split]]].
  - rewrite get_search_results_lookup, Hnone. reflexivity.
  - rewrite get_search_results_by_id_lookup, Hnone. reflexivity.
  - intros term. split; discriminate.
  - intros msg. apply error_not_found.
  - intros id' st exc.
    rewrite get_search_results_lookup, get_search_results_by_id_lookup.
    split; discriminate.
Qed.

Lemma C7_witness :
  let evs := [CallFindMenuOptions "pizza" ctx1 agent_ok; Loop 0;
              CallOrderFood pizza_url "pizza" ctx2 agent_timeout; Loop 1;
              Loop 0; Loop 0] in
  get_search_results "req-9" (steps initial evs)
  = Returned (not_found "req-9")
  ∧ get_search_results_by_id "req-9" (steps initial evs)
    = Returned (not_found_by_id "req-9").
Proof.
  cbn zeta.
  assert (Hid : "req-9"
                ∉ submitted
                    [CallFindMenuOptions "pizza" ctx1 agent_ok; Loop 0;
                     CallOrderFood pizza_url "pizza" ctx2 agent_timeout;
                     Loop 1; Loop 0; Loop 0]).
  { unfold submitted. cbn. rewrite !not_elem_of_union, !not_elem_of_singleton.
    split; [discriminate|]. split; [discriminate|].
    apply not_elem_of_empty. }
  destruct (C7_unknown_id_is_answered _ _ Hid) as (H1 & H2 & _).
  split; [exact H1|exact H2].
Defined.

(** ** The resource and the tool *)

(** Counterexample to C8: at start-up the resource and the tool answer
    differently for the same request id. *)
Lemma C8_counterexample_unknown_id_texts_differ :
  get_search_results "req-1" initial ≠ get_search_results_by_id "req-1" initial.
Proof. vm_compute. discriminate. Qed.

(** C8, on stored and on unknown ids: for a request id that is a key of the
    store, the resource
    and the tool return the same stored text; for an id that is not, the
    resource returns ["No search results found for request ID: "] followed
    by the id, and the tool returns that text followed by the advice to
    wait and retry. *)
Theorem C8_resource_and_tool id st :
  match search_results st !! id with
  | Some v =>
      get_search_results id st = Returned v
      ∧ get_search_results_by_id id st = Returned v
  | None =>
      get_search_results id st = Returned (not_found id)
      ∧ get_search_results_by_id id st
        = Returned
            (not_found id
             +:+ ". Perhaps you need to wait for 2 more minutes before retrieving results, if you already have retried, then the search may have failed.")
  end.
Proof.
  rewrite get_search_results_lookup, get_search_results_by_id_lookup.
  destruct (search_results st !! id) as [v|]; split; reflexivity.
Qed.

(** ** The dispatcher does not wait *)

(** C9: a dispatch returns its acknowledgement with the background task
    created but not yet run.  For [find_menu_options] and for [order_food],
    whatever the agent is going to do: the acknowledgement is the same
    text; the new task sits in the pool with its counter at 0 and the whole
    behaviour of the agent still ahead of it; and the dispatcher has added
    to the trace its own effects only (the marker and the task creation for
    a search, the task creation for an order), no notification and no
    outcome. *)
Theorem C9_dispatch_returns_before_agent_runs
    search_term item_url item_name context e st :
  let found := find_menu_options search_term context e st in
  let ordered := order_food item_url item_name context e st in
  (∀ e', fst (find_menu_options search_term context e' st) = fst found)
  ∧ fst found = search_started search_term (request_id context)
  ∧ tasks (snd found) !! next_task st
    = Some {| frame := PerformSearch (request_id context) search_term
                         (search_task search_term) context;
              step_count := 0; agent := e |}
  ∧ trace (snd found)
    = (trace st
       ++ [Write (request_id context) (in_progress search_term);
           CreateTask (PerformSearch (request_id context) search_term
                         (search_task search_term) context)])%list
  ∧ (∀ e', fst (order_food item_url item_name context e' st) = fst ordered)
  ∧ fst ordered = order_started item_name
  ∧ tasks (snd ordered) !! next_task st
    = Some {| frame := PerformOrder item_url item_name (order_task item_url)
                         context;
              step_count := 0; agent := e |}
  ∧ trace (snd ordered)
    = (trace st
       ++ [CreateTask (PerformOrder item_url item_name (order_task item_url)
                         context)])%list.
Proof.
  cbn zeta. repeat split.
  - cbn. apply lookup_insert_eq.
  - cbn. rewrite <- (assoc (++)). reflexivity.
  - cbn. apply lookup_insert_eq.
Qed.

(** ** Orders and the store *)

(** C10: orders leave the store alone.  While only order coroutines are in
    flight, any history without a call of [find_menu_options] (so: any
    number of [order_food] dispatches, resumptions of their tasks in any
    order up to their return, and retrievals) leaves [search_results]
    unchanged, and every retrieval answers as it did before.  The dispatch
    itself does not touch the store; a whole execution of [perform_order]
    makes no assignment, and what it returns (the agent's text, or the
    error message) is dropped with the finished task. *)
Theorem C10_orders_leave_store_unchanged
    st evs item_url item_name task context e :
  only_orders st →
  Forall no_search evs →
  search_results (steps st evs) = search_results st
  ∧ (∀ id, get_search_results_by_id id (steps st evs)
           = get_search_results_by_id id st
           ∧ get_search_results id (steps st evs) = get_search_results id st)
  ∧ get_all_search_results (steps st evs) = get_all_search_results st
  ∧ search_results (snd (order_food item_url item_name context e st))
    = search_results st
  ∧ writes (fst (perform_order item_url item_name task context e)) = []
  ∧ snd (perform_order item_url item_name task context e)
    = Some match failure e with
           | Some msg => "Error ordering '" +:+ item_name +:+ "': " +:+ msg
           | None => outcome e
           end.
Proof.
  intros Hpool Hevs.
  assert (Hsame := steps_only_orders evs st Hpool Hevs).
  split; [exact Hsame|]. split; [|split; [|split; [|split]]].
  - intros id.
    rewrite !get_search_results_by_id_lookup, !get_search_results_lookup, Hsame.
    split; reflexivity.
  - exact Hsame.
  - reflexivity.
  - apply writes_run_order.
  - apply return_run_order.
Qed.

Lemma C10_witness :
  let evs := [CallOrderFood pizza_url "pizza" ctx1 agent_ok; Loop 0;
              CallOrderFood pizza_url "calzone" ctx2 agent_timeout; Loop 1;
              Loop 0; CallGetSearchResultsById "req-1"; Loop 1; Loop 0] in
  search_results (steps initial evs) = search_results initial
  ∧ get_search_results_by_id "req-1" (steps initial evs)
    = Returned (not_found_by_id "req-1").
Proof.
  cbn zeta.
  assert (Hpool : only_orders initial) by apply map_Forall_empty.
  assert (Hevs : Forall no_search
                   [CallOrderFood pizza_url "pizza" ctx1 agent_ok; Loop 0;
                    CallOrderFood pizza_url "calzone" ctx2 agent_timeout;
                    Loop 1; Loop 0; CallGetSearchResultsById "req-1"; Loop 1;
                    Loop 0])
    by (repeat constructor).
  destruct (C10_orders_leave_store_unchanged initial _ pizza_url "pizza"
              (order_task pizza_url) ctx1 agent_ok Hpool Hevs)
    as (Hstore & Hget & _).
  split; [exact Hstore|].
  rewrite (proj1 (Hget "req-1")). reflexivity.
Defined.

(** * Beyond the claims *)

(** ** Whole executions of the three coroutines *)

Lemma effects_run_search rid term task ctx n e :
  fst (run (PerformSearch rid term task ctx) n e)
  = (flat_map (step_effects ctx "Step ") (seq (S n) (callbacks e))
     ++ Write rid (outcome e)
        :: match failure e with
           | Some msg =>
               [Notify ctx
                  (Error ("Error searching for '" +:+ term +:+ "': " +:+ msg))]
           | None => []
           end)%list.
Proof.
  revert n. induction e as [k IH | result | msg]; intros n.
  - rewrite run_OnStep. cbn [fst]. rewrite IH. reflexivity.
  - reflexivity.
  - reflexivity.
Qed.

Lemma return_run_search rid term task ctx n e :
  snd (run (PerformSearch rid term task ctx) n e) = None.
Proof.
  revert n. induction e as [k IH | result | msg]; intros n.
  - rewrite run_OnStep. cbn [snd]. apply IH.
  - reflexivity.
  - reflexivity.
Qed.

Lemma effects_run_order url name task ctx n e :
  fst (run (PerformOrder url name task ctx) n e)
  = (flat_map (step_effects ctx "Order step ") (seq (S n) (callbacks e))
     ++ [Notify ctx
           match failure e with
           | Some msg => Error ("Error ordering '" +:+ name +:+ "': " +:+ msg)
           | None =>
               Info ("Order for '" +:+ name
                     +:+ "' has been placed successfully!")
           end])%list.
Proof.
  revert n. induction e as [k IH | result | msg]; intros n.
  - rewrite run_OnStep. cbn [fst]. rewrite IH. reflexivity.
  - reflexivity.
  - reflexivity.
Qed.

Lemma run_login_OnStep ctx n k :
  run_login ctx n (OnStep k)
  = ((snd (login_step_handler ctx n) ++ fst (run_login ctx (S n) k))%list,
     snd (run_login ctx (S n) k)).
Proof. simpl. destruct (run_login ctx (S n) k). reflexivity. Qed.

Lemma effects_run_login ctx n e :
  fst (run_login ctx n e)
  = flat_map (step_effects ctx "Login status check step ")
      (seq (S n) (callbacks e)).
Proof.
  revert n. induction e as [k IH | result | msg]; intros n.
  - rewrite run_login_OnStep. cbn [fst]. rewrite IH. reflexivity.
  - reflexivity.
  - reflexivity.
Qed.

Lemma return_run_login ctx n e :
  snd (run_login ctx n e)
  = Some match failure e with
         | Some msg => "Error checking login status: " +:+ msg
         | None => outcome e
         end.
Proof.
  revert n. induction e as [k IH | result | msg]; intros n.
  - rewrite run_login_OnStep. cbn [snd]. apply IH.
  - reflexivity.
  - reflexivity.
Qed.

Lemma writes_step_effects ctx label l :
  writes (flat_map (step_effects ctx label) l) = [].
Proof. induction l as [|k l IH]; [reflexivity|exact IH]. Qed.

Lemma error_messages_step_effects ctx label l :
  error_messages (flat_map (step_effects ctx label) l) = [].
Proof. induction l as [|k l IH]; [reflexivity|exact IH]. Qed.

(** X1: one execution of [perform_search], effect by effect: for each
    callback of the agent, in order, the message ["Step k completed"] and
    the progress value [k]; after all of them the single assignment of the
    outcome under the request id; and last, only when the agent raised, the
    error notification.  The coroutine returns [None]. *)
Theorem X1_perform_search_effects_in_order rid search_term task context e :
  fst (perform_search rid search_term task context e)
  = (flat_map (step_effects context "Step ") (seq 1 (callbacks e))
     ++ Write rid (outcome e)
        :: match failure e with
           | Some msg =>
               [Notify context
                  (Error ("Error searching for '" +:+ search_term +:+ "': "
                          +:+ msg))]
           | None => []
           end)%list
  ∧ snd (perform_search rid search_term task context e) = None.
Proof.
  unfold perform_search. split.
  - apply effects_run_search.
  - apply return_run_search.
Qed.

(** X2: one execution of [perform_order], effect by effect: for each
    callback, in order, the message ["Order step k completed"] and the
    progress value [k]; then exactly one closing notification, the success
    message when the agent returned and the error message when it raised.
    The text of that error notification is also the value the coroutine
    returns; a successful order returns the agent's text. *)
Theorem X2_perform_order_effects_in_order
    restaurant_url item_name task context e :
  fst (perform_order restaurant_url item_name task context e)
  = (flat_map (step_effects context "Order step ") (seq 1 (callbacks e))
     ++ [Notify context
           match failure e with
           | Some msg =>
               Error ("Error ordering '" +:+ item_name +:+ "': " +:+ msg)
           | None =>
               Info ("Order for '" +:+ item_name
                     +:+ "' has been placed successfully!")
           end])%list
  ∧ snd (perform_order restaurant_url item_name task context e)
    = Some match failure e with
           | Some msg => "Error ordering '" +:+ item_name +:+ "': " +:+ msg
           | None => outcome e
           end.
Proof.
  unfold perform_order. split.
  - apply effects_run_order.
  - apply return_run_order.
Qed.

(** X3: the login check reports its steps and nothing else.  One execution
    of [perform_check_login_status] sends, for each callback in order, the
    message ["Login status check step k completed"] and the progress value
    [k]; it assigns nothing to the store and, unlike the search and the
    order, sends no error notification when the agent raises: the failure
    is only in the returned text ["Error checking login status: "] and the
    message.  [check_login_status] acknowledges with the same text whatever
    the agent does. *)
Theorem X3_login_check_only_reports_steps context e :
  let effs := fst (perform_check_login_status context e) in
  effs
  = flat_map (step_effects context "Login status check step ")
      (seq 1 (callbacks e))
  ∧ writes effs = []
  ∧ error_messages effs = []
  ∧ snd (perform_check_login_status context e)
    = Some match failure e with
           | Some msg => "Error checking login status: " +:+ msg
           | None => outcome e
           end
  ∧ check_login_status context e
    = ("Checking login status...", perform_check_login_status context e).
Proof.
  cbn zeta. unfold perform_check_login_status.
  rewrite effects_run_login. split; [reflexivity|].
  split; [apply writes_step_effects|].
  split; [apply error_messages_step_effects|].
  split; [apply return_run_login|reflexivity].
Qed.

(** ** The logging filters *)

Lemma startswith_spec s p :
  startswith s p = true ↔ ∃ rest, s = p +:+ rest.
Proof.
  unfold startswith. revert s. induction p as [|a p IH]; intros s.
  - split; [intros _; exists s; reflexivity|].
    intros _. destruct s; reflexivity.
  - destruct s as [|b s]; cbn.
    + split; [discriminate|intros [rest Hrest]; discriminate Hrest].
    + destruct (Ascii.ascii_dec a b) as [->|Hne].
      * rewrite IH. split; intros [rest Hrest]; exists rest.
        -- cbn. rewrite Hrest. reflexivity.
        -- cbn in Hrest. injection Hrest as Hrest. exact Hrest.
      * split; [discriminate|].
        intros [rest Hrest]. cbn in Hrest. injection Hrest as Hab _.
        congruence.
Qed.

Lemma length_append s1 s2 :
  String.length (s1 +:+ s2) = (String.length s1 + String.length s2)%nat.
Proof.
  induction s1 as [|a s1 IH]; [reflexivity|].
  change (S (String.length (s1 +:+ s2))
          = S (String.length s1 + String.length s2)).
  rewrite IH. reflexivity.
Qed.

Lemma startswith_length s p :
  startswith s p = true → (String.length p ≤ String.length s)%nat.
Proof.
  intros Hs. apply startswith_spec in Hs as [rest ->].
  rewrite length_append. lia.
Qed.

Lemma logger_filter_addFilter f filters record :
  logger_filter (addFilter f filters) record
  = logger_filter filters record && PatternFilter.filter f record.
Proof.
  unfold logger_filter, addFilter. rewrite forallb_app. cbn.
  rewrite andb_true_r. reflexivity.
Qed.

Lemma filter_false_startswith self record :
  PatternFilter.filter self record = false
  ↔ startswith (getMessage record) (PatternFilter.pattern self) = true.
Proof. unfold PatternFilter.filter. apply negb_false_iff. Qed.

(** X4: a [PatternFilter] drops exactly the records whose message begins
    with its pattern: [filter] returns [False] if and only if the message
    is the pattern followed by some text, and [True] otherwise. *)
Theorem X4_pattern_filter_drops_prefixed self record :
  (PatternFilter.filter self record = false
   ↔ ∃ rest, getMessage record = PatternFilter.pattern self +:+ rest)
  ∧ (PatternFilter.filter self record = true
     ↔ ¬ ∃ rest, getMessage record = PatternFilter.pattern self +:+ rest).
Proof.
  rewrite filter_false_startswith, <- startswith_spec.
  unfold PatternFilter.filter.
  destruct (startswith (getMessage record) (PatternFilter.pattern self)); cbn.
  - split; [reflexivity|].
    split; [discriminate|]. intros Hnot. destruct Hnot. reflexivity.
  - split; [reflexivity|].
    split; [intros _ Hfalse; discriminate Hfalse|reflexivity].
Qed.

Lemma X4_witness :
  PatternFilter.filter info_filter
    {| getMessage := "INFO [agent] step 3" |} = false
  ∧ PatternFilter.filter info_filter
      {| getMessage := "Task INFO [agent] done" |} = true.
Proof.
  split.
  - apply (proj2 (proj1 (X4_pattern_filter_drops_prefixed info_filter
                           {| getMessage := "INFO [agent] step 3" |}))).
    exists "agent] step 3". reflexivity.
  - apply (proj2 (proj2 (X4_pattern_filter_drops_prefixed info_filter
                           {| getMessage := "Task INFO [agent] done" |}))).
    intros [rest Hrest]. discriminate Hrest.
Defined.

(** X5: the edge cases of a [PatternFilter].  With the empty pattern it
    drops every record, the one with the empty message included; a record
    whose message is shorter than the pattern always passes. *)
Theorem X5_pattern_filter_edges :
  (∀ record,
     PatternFilter.filter {| PatternFilter.pattern := EmptyString |} record
     = false)
  ∧ ∀ self record,
      (String.length (getMessage record)
       < String.length (PatternFilter.pattern self))%nat →
      PatternFilter.filter self record = true.
Proof.
  split.
  - intros [msg]. unfold PatternFilter.filter, startswith. cbn.
    destruct msg; reflexivity.
  - intros self record Hlen. unfold PatternFilter.filter.
    destruct (startswith (getMessage record) (PatternFilter.pattern self))
      eqn:Hs; [|reflexivity].
    apply startswith_length in Hs. lia.
Qed.

Lemma X5_witness :
  PatternFilter.filter warning_filter {| getMessage := "WARN" |} = true.
Proof.
  apply (proj2 X5_pattern_filter_edges warning_filter
           {| getMessage := "WARN" |}).
  vm_compute. lia.
Defined.

(** X6: what the filters of the root logger reject.  With both filters
    attached, the root logger's filters reject a record handed to them if
    and only if its message begins with ["INFO ["] or with ["WARNING ["];
    they accept exactly the records that both the filters of the ["INFO"]
    logger and those of the ["WARNING"] logger accept; and attaching one
    more filter to any logger can only reject more. *)
Theorem X6_root_logger_drops_both_prefixes record :
  (logger_filter root_logger record = false
   ↔ (∃ rest, getMessage record = "INFO [" +:+ rest)
     ∨ (∃ rest, getMessage record = "WARNING [" +:+ rest))
  ∧ logger_filter root_logger record
    = logger_filter info_logger record && logger_filter warning_logger record
  ∧ ∀ f filters,
      logger_filter (addFilter f filters) record
      = logger_filter filters record && PatternFilter.filter f record.
Proof.
  split; [|split].
  - unfold root_logger. rewrite !logger_filter_addFilter. cbn [logger_filter forallb].
    rewrite andb_true_l, andb_false_iff, !filter_false_startswith.
    rewrite !startswith_spec. reflexivity.
  - unfold root_logger, info_logger, warning_logger.
    rewrite !logger_filter_addFilter. reflexivity.
  - intros f filters. apply logger_filter_addFilter.
Qed.

Lemma X6_witness :
  logger_filter root_logger {| getMessage := "WARNING [browser] retry" |}
  = false.
Proof.
  apply (proj2 (proj1 (X6_root_logger_drops_both_prefixes
                         {| getMessage := "WARNING [browser] retry" |}))).
  right. exists "browser] retry". reflexivity.
Defined.

(** ** Searches under distinct request ids *)

Lemma pool_bounded_steps evs : pool_bounded (steps initial evs).
Proof.
  induction evs as [|ev evs IH] using rev_ind.
  - apply map_Forall_empty.
  - rewrite steps_snoc. apply step_pool_bounded. exact IH.
Qed.

Lemma search_ids_elem term ctx e evs :
  CallFindMenuOptions term ctx e ∈ evs → request_id ctx ∈ search_ids evs.
Proof.
  intros Hin. apply list_elem_of_omap.
  exists (CallFindMenuOptions term ctx e). split; [exact Hin|reflexivity].
Qed.

(** Under distinct request ids a request id names one dispatch. *)
Lemma unique_dispatch evs :
  NoDup (search_ids evs) →
  ∀ t1 c1 e1 t2 c2 e2,
    CallFindMenuOptions t1 c1 e1 ∈ evs →
    CallFindMenuOptions t2 c2 e2 ∈ evs →
    request_id c1 = request_id c2 →
    t1 = t2 ∧ c1 = c2 ∧ e1 = e2.
Proof.
  induction evs as [|ev evs IH]; intros Hnd t1 c1 e1 t2 c2 e2 H1 H2 Hid.
  { apply elem_of_nil in H1. destruct H1. }
  apply elem_of_cons in H1. apply elem_of_cons in H2.
  assert (Htail : NoDup (search_ids evs)).
  { destruct ev; cbn in Hnd; try exact Hnd.
    apply NoDup_cons in Hnd. apply Hnd. }
  destruct H1 as [<-|H1], H2 as [H2|H2].
  - injection H2 as <- <- <-. auto.
  - cbn in Hnd. apply NoDup_cons in Hnd as [Hnotin _]. destruct Hnotin.
    rewrite Hid. eapply search_ids_elem, H2.
  - subst ev. cbn in Hnd. apply NoDup_cons in Hnd as [Hnotin _].
    destruct Hnotin. rewrite <- Hid. eapply search_ids_elem, H1.
  - exact (IH Htail _ _ _ _ _ _ H1 H2 Hid).
Qed.

Lemma search_ids_snoc evs ev :
  search_ids (evs ++ [ev]) = (search_ids evs ++ search_ids [ev])%list.
Proof. apply omap_app. Qed.

Lemma settled_step evs st ev :
  NoDup (search_ids (evs ++ [ev])) →
  consistent evs st → pool_bounded st → settled evs st →
  settled (evs ++ [ev]) (step st ev).
Proof.
  intros Hnd (_ & Horigin & _) Hb Hset term ctx e Hin.
  assert (Hnd' : NoDup (search_ids evs)).
  { rewrite search_ids_snoc in Hnd. apply NoDup_app in Hnd. apply Hnd. }
  apply elem_of_app in Hin as [Hin|Hnew].
  - (* an earlier dispatch *)
    specialize (Hset _ _ _ Hin).
    destruct ev as [term0 ctx0 e0 | url name ctx0 e0 | | | | j];
      cbn [step handle find_menu_options order_food snd]; try exact Hset.
    + assert (Hne : request_id ctx0 ≠ request_id ctx).
      { intros Heq. rewrite search_ids_snoc in Hnd.
        apply NoDup_app in Hnd as (_ & Hdisj & _).
        apply (Hdisj (request_id ctx)).
        - eapply search_ids_elem, Hin.
        - cbn. rewrite Heq. apply list_elem_of_singleton. reflexivity. }
      destruct Hset as [(i & t & Hi & Ht)|Hstore].
      * left. exists i, t. split; [|exact Ht]. cbn.
        assert (Hlt := Hb _ _ Hi). cbn in Hlt.
        rewrite lookup_insert_ne by lia. exact Hi.
      * right. cbn. rewrite lookup_insert_ne by exact Hne. exact Hstore.
    + destruct Hset as [(i & t & Hi & Ht)|Hstore].
      * left. exists i, t. split; [|exact Ht]. cbn.
        assert (Hlt := Hb _ _ Hi). cbn in Hlt.
        rewrite lookup_insert_ne by lia. exact Hi.
      * right. exact Hstore.
    + destruct (tasks st !! j) as [tj|] eqn:Hj.
      2:{ rewrite (resume_task_None _ _ Hj). exact Hset. }
      rewrite (resume_task_Some _ _ _ Hj). cbn [search_results tasks].
      rewrite resume_store.
      assert (Hown : target tj = Some (request_id ctx) →
                     outcome (agent tj) = outcome e).
      { intros Htj. assert (Ho := Horigin _ _ Hj). unfold origin in Ho.
        unfold target, frame_target in Htj.
        destruct (frame tj) as [rid term' task' ctx'|]; [|discriminate].
        injection Htj as ->.
        destruct Ho as (ctx1 & e1 & Hin1 & Hid1 & <-).
        destruct (unique_dispatch evs Hnd' _ _ _ _ _ _ Hin1 Hin Hid1)
          as (_ & _ & ->). reflexivity. }
      destruct (resume tj) as [effs [t'|ret]] eqn:Hr; cbn [snd].
      * (* the task is suspended again: its agent had a callback *)
        assert (Hstep : ∃ k, agent tj = OnStep k).
        { destruct tj as [f n a]. unfold resume in Hr. cbn in Hr.
          destruct a as [k| |]; [eauto|..].
          - destruct (on_result f result). discriminate.
          - destruct (on_exception f msg). discriminate. }
        destruct Hstep as [k ->].
        destruct Hset as [(i & t & Hi & Ht)|Hstore]; [|right; exact Hstore].
        left. destruct (decide (i = j)) as [->|Hij].
        -- exists j, t'. split; [apply lookup_insert_eq|].
           unfold target. rewrite (resume_frame _ _ _ Hr).
           assert (t = tj) as -> by congruence. exact Ht.
        -- exists i, t. split; [|exact Ht].
           rewrite lookup_insert_ne by congruence. exact Hi.
      * (* the task has returned *)
        assert (Hend : ∀ k, agent tj ≠ OnStep k).
        { intros k Hk. destruct tj as [f n a]. cbn in Hk. subst a.
          unfold resume in Hr. cbn in Hr.
          destruct (step_handler f n). discriminate. }
        assert (Hwritten :
          ∀ d : gmap string string,
               d !! request_id ctx = Some (outcome e)
               ∨ target tj = Some (request_id ctx) →
               match agent tj, target tj with
               | OnStep _, _ | _, None => d
               | a, Some k => <[k := outcome a]> d
               end !! request_id ctx = Some (outcome e)).
        { intros d Hd. destruct (agent tj) as [k| |] eqn:Ha;
            [destruct (Hend k eq_refl)|..];
            (destruct (target tj) as [k|] eqn:Htj;
             [destruct (decide (k = request_id ctx)) as [->|Hk];
              [rewrite lookup_insert_eq, <- (Hown eq_refl); reflexivity
              |rewrite lookup_insert_ne by exact Hk;
               destruct Hd as [Hd|Hd]; [exact Hd|congruence]]
             |destruct Hd as [Hd|Hd]; [exact Hd|discriminate]]). }
        destruct Hset as [(i & t & Hi & Ht)|Hstore].
        -- destruct (decide (i = j)) as [->|Hij].
           ++ right. apply Hwritten. right.
              assert (t = tj) as <- by congruence. exact Ht.
           ++ left. exists i, t. split; [|exact Ht].
              rewrite lookup_delete_ne by congruence. exact Hi.
        -- right. apply Hwritten. left. exact Hstore.
  - (* the dispatch that has just arrived *)
    apply list_elem_of_singleton in Hnew. subst ev.
    left. cbn. eexists _, _. split; [apply lookup_insert_eq|reflexivity].
Qed.

Lemma settled_steps evs :
  NoDup (search_ids evs) → settled evs (steps initial evs).
Proof.
  induction evs as [|ev evs IH] using rev_ind; intros Hnd.
  - intros term ctx e Hin. apply elem_of_nil in Hin. destruct Hin.
  - rewrite steps_snoc. apply settled_step.
    + exact Hnd.
    + apply consistent_steps.
    + apply pool_bounded_steps.
    + apply IH. rewrite search_ids_snoc in Hnd.
      apply NoDup_app in Hnd. apply Hnd.
Qed.

(** X7: searches under distinct request ids do not mix.  After any history
    from start-up in which no two searches were dispatched under the same
    request id, whatever the order in which the event loop ran them: what is
    stored under the id of a dispatched search is that search's own
    in-progress marker or its own agent's outcome; and once no pooled task
    assigns to that id any more, both retrieval functions return the outcome
    of that search's own agent. *)
Theorem X7_distinct_ids_do_not_mix evs search_term context e :
  NoDup (search_ids evs) →
  CallFindMenuOptions search_term context e ∈ evs →
  (∃ v, search_results (steps initial evs) !! request_id context = Some v
        ∧ (v = in_progress search_term ∨ v = outcome e))
  ∧ (untargeted (request_id context) (steps initial evs) →
     get_search_results_by_id (request_id context) (steps initial evs)
     = Returned (outcome e)
     ∧ get_search_results (request_id context) (steps initial evs)
       = Returned (outcome e)).
Proof.
  intros Hnd Hin. split.
  - destruct (consistent_steps evs) as (Hdom & _ & Hval & _).
    assert (Hkey : request_id context ∈ dom (search_results (steps initial evs))).
    { rewrite Hdom. apply elem_of_list_to_set. eapply search_ids_elem, Hin. }
    apply elem_of_dom in Hkey as [v Hv]. exists v. split; [exact Hv|].
    destruct (Hval _ _ Hv) as (term' & o & (ctx1 & e1 & Hin1 & Hid1 & <-) & Hor).
    destruct (unique_dispatch evs Hnd _ _ _ _ _ _ Hin1 Hin Hid1)
      as (-> & _ & ->).
    exact Hor.
  - intros Hfree.
    destruct (settled_steps evs Hnd _ _ _ Hin) as [(i & t & Hi & Ht)|Hstore].
    + destruct (Hfree _ _ Hi Ht).
    + rewrite get_search_results_by_id_lookup, get_search_results_lookup, Hstore.
      split; reflexivity.
Qed.

Lemma X7_witness :
  let evs := [CallFindMenuOptions "pizza" ctx1 agent_ok;
              CallFindMenuOptions "sushi" ctx2 agent_timeout;
              Loop 1; Loop 0; Loop 1; Loop 0; Loop 0] in
  get_search_results_by_id "req-1" (steps initial evs)
  = Returned "Margherita 9.50"
  ∧ get_search_results_by_id "req-2" (steps initial evs)
    = Returned "Error: navigation timeout".
Proof.
  cbn zeta.
  assert (Hnd : NoDup (search_ids
                         [CallFindMenuOptions "pizza" ctx1 agent_ok;
                          CallFindMenuOptions "sushi" ctx2 agent_timeout;
                          Loop 1; Loop 0; Loop 1; Loop 0; Loop 0])).
  { cbn. apply NoDup_cons. split.
    - rewrite list_elem_of_singleton. discriminate.
    - apply NoDup_singleton. }
  split.
  - refine (proj1 (proj2 (X7_distinct_ids_do_not_mix _ "pizza" ctx1 agent_ok
                            Hnd _) _)).
    + apply list_elem_of_here.
    + unfold untargeted. apply (bool_decide_unpack _). vm_compute. exact I.
  - refine (proj1 (proj2 (X7_distinct_ids_do_not_mix _ "sushi" ctx2
                            agent_timeout Hnd _) _)).
    + apply list_elem_of_further, list_elem_of_here.
    + unfold untargeted. apply (bool_decide_unpack _). vm_compute. exact I.
Defined.

(** ** The store only grows *)

Lemma size_list_to_set_le (l : list string) :
  (size (list_to_set l : gset string) ≤ length l)%nat.
Proof.
  induction l as [|x l IH]; cbn.
  - rewrite size_empty. lia.
  - rewrite size_union_alt, size_singleton.
    assert (size (list_to_set l ∖ {[x]} : gset string)
            ≤ size (list_to_set l : gset string))%nat.
    { apply subseteq_size. apply subseteq_difference_l. reflexivity. }
    lia.
Qed.

(** X8: no entry is ever removed.  Whatever requests arrive and whatever
    the event loop runs, every key of [search_results] is still a key
    afterwards, so the number of entries never goes down; from start-up it
    is at most the number of [find_menu_options] calls so far, and every
    such call under a fresh request id adds one entry for good. *)
Theorem X8_store_only_grows st evs :
  dom (search_results st) ⊆ dom (search_results (steps st evs))
  ∧ (size (search_results st) ≤ size (search_results (steps st evs)))%nat
  ∧ (size (search_results (steps initial evs)) ≤ length (search_ids evs))%nat
  ∧ (NoDup (search_ids evs) →
     size (search_results (steps initial evs)) = length (search_ids evs)).
Proof.
  assert (Hsub := steps_dom evs st).
  split; [exact Hsub|]. split; [|split].
  - rewrite <- !(size_dom (D := gset string)). apply subseteq_size, Hsub.
  - destruct (consistent_steps evs) as (Hdom & _).
    rewrite <- (size_dom (D := gset string)), Hdom. apply size_list_to_set_le.
  - intros Hnd. destruct (consistent_steps evs) as (Hdom & _).
    rewrite <- (size_dom (D := gset string)), Hdom.
    apply size_list_to_set. exact Hnd.
Qed.

Lemma X8_witness :
  size (search_results
          (steps initial
             [CallFindMenuOptions "pizza" ctx1 agent_ok; Loop 0;
              CallFindMenuOptions "sushi" ctx2 agent_timeout; Loop 0; Loop 1;
              Loop 0; Loop 1]))
  = 2.
Proof.
  refine (proj2 (proj2 (proj2 (X8_store_only_grows initial
    [CallFindMenuOptions "pizza" ctx1 agent_ok; Loop 0;
     CallFindMenuOptions "sushi" ctx2 agent_timeout; Loop 0; Loop 1;
     Loop 0; Loop 1]))) _).
  cbn. apply NoDup_cons. split.
  - rewrite list_elem_of_singleton. discriminate.
  - apply NoDup_singleton.
Defined.

(** ** Two searches under one request id *)

Lemma resume_task_final i st t rid :
  tasks st !! i = Some t → target t = Some rid → callbacks (agent t) = 0 →
  search_results (resume_task i st)
  = <[rid := outcome (agent t)]> (search_results st)
  ∧ tasks (resume_task i st) = delete i (tasks st).
Proof.
  intros Hi Ht Hend. rewrite (resume_task_Some _ _ _ Hi).
  cbn [search_results tasks]. rewrite resume_store, Ht.
  destruct t as [f n a]. cbn [agent] in *. unfold resume. cbn [agent frame].
  destruct a as [k | result | msg]; [discriminate Hend|..].
  - destruct (on_result f result). split; reflexivity.
  - destruct (on_exception f msg). split; reflexivity.
Qed.

(** X9: nothing guards a request id that is in use.  When two pooled
    searches assign to the same request id and both agents are about to
    end, retrieval returns the outcome of whichever task the event loop
    resumes last: the earlier outcome is overwritten. *)
Theorem X9_shared_id_last_finisher_wins
    st i j rid term1 task1 context1 n1 a1 term2 task2 context2 n2 a2 :
  i ≠ j →
  tasks st !! i
  = Some {| frame := PerformSearch rid term1 task1 context1;
            step_count := n1; agent := a1 |} →
  tasks st !! j
  = Some {| frame := PerformSearch rid term2 task2 context2;
            step_count := n2; agent := a2 |} →
  callbacks a1 = 0 →
  callbacks a2 = 0 →
  get_search_results_by_id rid (steps st [Loop i; Loop j])
  = Returned (outcome a2)
  ∧ get_search_results_by_id rid (steps st [Loop j; Loop i])
    = Returned (outcome a1).
Proof.
  intros Hij Hi Hj H1 H2.
  destruct (resume_task_final i st _ rid Hi eq_refl H1) as [Hsi Hti].
  destruct (resume_task_final j st _ rid Hj eq_refl H2) as [Hsj Htj].
  cbn [agent] in *.
  assert (Hj' : tasks (resume_task i st) !! j
                = Some {| frame := PerformSearch rid term2 task2 context2;
                          step_count := n2; agent := a2 |}).
  { rewrite Hti, lookup_delete_ne by exact Hij. exact Hj. }
  assert (Hi' : tasks (resume_task j st) !! i
                = Some {| frame := PerformSearch rid term1 task1 context1;
                          step_count := n1; agent := a1 |}).
  { rewrite Htj, lookup_delete_ne by congruence. exact Hi. }
  destruct (resume_task_final j _ _ rid Hj' eq_refl H2) as [Hsij _].
  destruct (resume_task_final i _ _ rid Hi' eq_refl H1) as [Hsji _].
  cbn [agent] in *.
  rewrite !get_search_results_by_id_lookup. cbn [steps foldl step handle snd].
  rewrite Hsij, Hsji, !lookup_insert_eq. split; reflexivity.
Qed.

Lemma X9_witness :
  let st := steps initial
              [CallFindMenuOptions "pizza" ctx1 (Return "Margherita 9.50");
               CallFindMenuOptions "pasta" ctx1 (Raise "navigation timeout")] in
  get_search_results_by_id "req-1" (steps st [Loop 0; Loop 1])
  = Returned "Error: navigation timeout"
  ∧ get_search_results_by_id "req-1" (steps st [Loop 1; Loop 0])
    = Returned "Margherita 9.50".
Proof.
  cbn zeta.
  refine (X9_shared_id_last_finisher_wins
    (steps initial
       [CallFindMenuOptions "pizza" ctx1 (Return "Margherita 9.50");
        CallFindMenuOptions "pasta" ctx1 (Raise "navigation timeout")])
    0 1 "req-1" "pizza" (search_task "pizza") ctx1 0 (Return "Margherita 9.50")
    "pasta" (search_task "pasta") ctx1 0 (Raise "navigation timeout")
    _ _ _ _ _).
  - lia.
  - vm_compute. reflexivity.
  - vm_compute. reflexivity.
  - reflexivity.
  - reflexivity.
Defined.

(** ** Background tasks and dispatches *)

Lemma created_app l1 l2 : created (l1 ++ l2) = (created l1 ++ created l2)%list.
Proof. apply omap_app. Qed.

Lemma created_resume t : created (fst (resume t)) = [].
Proof.
  destruct t as [f n a]. unfold resume. cbn [agent frame step_count].
  destruct a as [k | result | msg]; destruct f; reflexivity.
Qed.

Lemma dispatches_snoc evs ev :
  dispatches (evs ++ [ev]) = (dispatches evs ++ dispatches [ev])%list.
Proof. apply omap_app. Qed.

Lemma step_created st ev :
  created (trace (step st ev)) = (created (trace st) ++ dispatches [ev])%list
  ∧ next_task (step st ev) = next_task st + length (dispatches [ev]).
Proof.
  destruct ev as [term ctx e | url name ctx e | | | | i];
    cbn [step handle find_menu_options order_food snd].
  - cbn. rewrite !created_app. cbn. rewrite app_nil_r.
    split; [reflexivity|lia].
  - cbn. rewrite !created_app. cbn. split; [reflexivity|lia].
  - cbn. rewrite app_nil_r. split; [reflexivity|lia].
  - cbn. rewrite app_nil_r. split; [reflexivity|lia].
  - cbn. rewrite app_nil_r. split; [reflexivity|lia].
  - rewrite resume_task_next. cbn [dispatches omap length].
    rewrite app_nil_r. split; [|cbn; lia].
    destruct (tasks st !! i) as [t|] eqn:Hi.
    + rewrite (resume_task_Some _ _ _ Hi). cbn [trace].
      rewrite created_app, created_resume, app_nil_r. reflexivity.
    + rewrite (resume_task_None _ _ Hi). reflexivity.
Qed.

(** X10: one background task per dispatch, and none otherwise.  After any
    history from start-up, the coroutines handed to [asyncio.create_task]
    are, in order, exactly one [perform_search] for each call of
    [find_menu_options] and one [perform_order] for each call of
    [order_food], each with the arguments of its call and the task text
    built from them; retrievals and the running of tasks create none.  The
    pool never holds more tasks than were created. *)
Theorem X10_one_task_per_dispatch evs :
  created (trace (steps initial evs)) = dispatches evs
  ∧ next_task (steps initial evs) = length (dispatches evs)
  ∧ (size (tasks (steps initial evs)) ≤ length (dispatches evs))%nat.
Proof.
  assert (Hboth : created (trace (steps initial evs)) = dispatches evs
                  ∧ next_task (steps initial evs) = length (dispatches evs)).
  { induction evs as [|ev evs [IH1 IH2]] using rev_ind; [split; reflexivity|].
    rewrite steps_snoc, dispatches_snoc.
    destruct (step_created (steps initial evs) ev) as [-> ->].
    rewrite IH1, IH2, length_app. split; reflexivity. }
  destruct Hboth as [Hc Hn]. split; [exact Hc|]. split; [exact Hn|].
  rewrite <- Hn. assert (Hb := pool_bounded_steps evs).
  generalize dependent (steps initial evs). clear. intros st _ _ Hb.
  unfold pool_bounded in Hb.
  rewrite <- (size_dom (D := gset nat)).
  assert (Hsub : dom (tasks st) ⊆ set_seq 0 (next_task st)).
  { intros i Hi. apply elem_of_dom in Hi as [t Ht].
    apply elem_of_set_seq. specialize (Hb _ _ Ht). cbn in Hb. lia. }
  apply subseteq_size in Hsub. rewrite size_set_seq in Hsub. exact Hsub.
Qed.

(** ** A search before its agent ends *)

Lemma step_other_store rid tid st ev :
  sole_writer rid tid st → avoids rid ev → resumptions tid [ev] = 0 →
  search_results (step st ev) !! rid = search_results st !! rid.
Proof.
  intros Hw Hev Hother.
  destruct ev as [term ctx e | url name ctx e | | | | j];
    cbn [step handle find_menu_options order_food snd]; try reflexivity.
  - cbn. apply lookup_insert_ne. exact Hev.
  - cbn in Hother. destruct (decide (j = tid)) as [|Hne]; [discriminate|].
    destruct (tasks st !! j) as [tj|] eqn:Hj.
    + rewrite (resume_task_Some _ _ _ Hj). cbn [search_results].
      apply resume_store_other. intros Htj. apply Hne.
      exact (Hw _ _ Hj Htj).
    + rewrite (resume_task_None _ _ Hj). reflexivity.
Qed.

(** While the event loop has resumed a pooled search no more often than its
    agent has callbacks, under any interleaving, the search is still in the
    pool, its counter has advanced by the number of its resumptions, and
    what is stored under its request id has not changed. *)
Lemma interleaved_pending rid tid evs : ∀ st t,
  tasks st !! tid = Some t →
  target t = Some rid →
  pool_bounded st →
  sole_writer rid tid st →
  Forall (avoids rid) evs →
  (resumptions tid evs ≤ callbacks (agent t))%nat →
  search_results (steps st evs) !! rid = search_results st !! rid
  ∧ tasks (steps st evs) !! tid
    = Some {| frame := frame t;
              step_count := step_count t + resumptions tid evs;
              agent := after (resumptions tid evs) (agent t) |}.
Proof.
  induction evs as [|ev evs IH]; intros st t Ht Htarget Hb Hw Hevs Hn.
  { split; [reflexivity|]. cbn. rewrite Ht. destruct t as [f n a]. cbn.
    rewrite Nat.add_0_r. reflexivity. }
  apply Forall_cons in Hevs as [Hev Hevs]. rewrite steps_cons.
  destruct (step_pool_bounded st ev Hb) as [Hb' _].
  assert (Hw' := step_sole_writer rid tid st ev Hw Hev).
  destruct (decide (resumptions tid [ev] = 0)) as [Hother|Hself].
  - assert (Hsame : resumptions tid (ev :: evs) = resumptions tid evs).
    { destruct ev as [| | | | |j]; cbn in Hother |- *; try reflexivity.
      destruct (decide (j = tid)); [discriminate|reflexivity]. }
    rewrite Hsame in *.
    destruct (IH (step st ev) t) as [Hstore Htask]; try assumption.
    { apply step_keeps_task; assumption. }
    split; [|exact Htask].
    rewrite Hstore. apply (step_other_store rid tid); assumption.
  - destruct ev as [| | | | |j]; cbn in Hself; try congruence.
    destruct (decide (j = tid)) as [->|]; [|cbn in Hself; lia]. clear Hself.
    cbn [step handle snd] in *. cbn in Hn.
    destruct (decide (tid = tid)) as [_|]; [|congruence].
    assert (Hst := resume_task_Some _ _ _ Ht).
    assert (Hstore := resume_store t (search_results st)).
    destruct t as [f n a]. cbn [agent frame step_count] in *.
    destruct a as [k | result | msg]; [|cbn in Hn; lia..].
    unfold resume in Hst, Hstore. cbn [agent frame step_count] in Hst, Hstore.
    destruct (step_handler f n) as [m effs] eqn:Hh.
    assert (m = S n) as -> by (destruct f; cbn in Hh; congruence).
    cbn [fst snd] in Hst, Hstore.
    destruct (IH (resume_task tid st)
                {| frame := f; step_count := S n; agent := k |})
      as [Hstore' Htask']; try assumption.
    { rewrite Hst. cbn. apply lookup_insert_eq. }
    { cbn in Hn |- *. lia. }
    cbn [agent frame step_count] in Htask'.
    split.
    + rewrite Hstore', Hst. cbn [search_results]. rewrite Hstore. reflexivity.
    + rewrite Htask'. cbn.
      destruct (decide (tid = tid)) as [_|]; [|congruence].
      cbn. replace (n + S (resumptions tid evs)) with
        (S (n + resumptions tid evs)) by lia. reflexivity.
Qed.

(** X11: a search stays pending until its agent ends.  Let
    [find_menu_options] be called in a state whose pooled task numbers are
    all below the next number to be given out (as in every state reached
    from start-up) and in which no pooled task assigns to the request id of
    the call.  From the state in which it returns, under any interleaving
    with other requests and tasks in which the request id is not dispatched
    again, as long as the event loop has resumed the new task at most as
    many times as its agent has callbacks: both retrieval functions still
    return the in-progress marker, the task is still in the pool, and its
    [step_count] equals the number of its resumptions so far. *)
Theorem X11_search_pending_until_agent_ends search_term context e st evs :
  pool_bounded st →
  untargeted (request_id context) st →
  Forall (avoids (request_id context)) evs →
  (resumptions (next_task st) evs ≤ callbacks e)%nat →
  let st1 := steps (snd (find_menu_options search_term context e st)) evs in
  get_search_results_by_id (request_id context) st1
  = Returned (in_progress search_term)
  ∧ get_search_results (request_id context) st1
    = Returned (in_progress search_term)
  ∧ tasks st1 !! next_task st
    = Some {| frame := PerformSearch (request_id context) search_term
                         (search_task search_term) context;
              step_count := resumptions (next_task st) evs;
              agent := after (resumptions (next_task st) evs) e |}.
Proof.
  intros Hb Hfree Hevs Hn. cbn zeta.
  set (st0 := snd (find_menu_options search_term context e st)).
  assert (Ht : tasks st0 !! next_task st
               = Some {| frame := PerformSearch (request_id context)
                                    search_term (search_task search_term)
                                    context;
                         step_count := 0; agent := e |})
    by apply lookup_insert_eq.
  assert (Hb0 : pool_bounded st0).
  { apply (step_pool_bounded st (CallFindMenuOptions search_term context e)).
    exact Hb. }
  assert (Hw0 : sole_writer (request_id context) (next_task st) st0).
  { unfold sole_writer, st0. cbn. apply map_Forall_insert_2; [reflexivity|].
    intros i t Hi Hti. destruct (Hfree _ _ Hi Hti). }
  destruct (interleaved_pending (request_id context) (next_task st) evs st0 _
              Ht eq_refl Hb0 Hw0 Hevs Hn) as [Hstore Htask].
  cbn [frame step_count agent] in Htask.
  assert (Hlook : search_results (steps st0 evs) !! request_id context
                  = Some (in_progress search_term)).
  { rewrite Hstore. unfold st0. cbn. apply lookup_insert_eq. }
  split; [|split].
  - rewrite get_search_results_by_id_lookup, Hlook. reflexivity.
  - rewrite get_search_results_lookup, Hlook. reflexivity.
  - exact Htask.
Qed.

Lemma X11_witness :
  let st := steps initial [CallFindMenuOptions "sushi" ctx2 agent_timeout] in
  let evs := [Loop 0; Loop 1; CallOrderFood pizza_url "pizza" ctx2 agent_ok;
              Loop 0; Loop 1; Loop 2; CallGetAllSearchResults] in
  get_search_results_by_id "req-1"
    (steps (snd (find_menu_options "pizza" ctx1 agent_ok st)) evs)
  = Returned (in_progress "pizza").
Proof.
  cbn zeta.
  refine (proj1 (X11_search_pending_until_agent_ends "pizza" ctx1 agent_ok
    (steps initial [CallFindMenuOptions "sushi" ctx2 agent_timeout])
    [Loop 0; Loop 1; CallOrderFood pizza_url "pizza" ctx2 agent_ok;
     Loop 0; Loop 1; Loop 2; CallGetAllSearchResults] _ _ _ _)).
  - unfold pool_bounded. apply (bool_decide_unpack _). vm_compute. exact I.
  - unfold untargeted. apply (bool_decide_unpack _). vm_compute. exact I.
  - repeat constructor; cbn; discriminate.
  - vm_compute. lia.
Defined.

(** ** Stored outcomes carry no tag *)

(** X12: the store does not tell a failed search from a successful one
    whose text happens to begin with ["Error: "].  A search whose agent
    returns the text ["Error: M"] and a search whose agent raises with
    message [M] leave the same store, whatever their numbers of callbacks;
    and more generally the store after a search depends on its agent only
    through the outcome text.  Only the error notification sets the two
    apart: it is sent in the second case and not in the first. *)
Theorem X12_failure_and_error_text_store_alike
    rid search_term task context d M c1 c2 :
  store_effects d
    (fst (perform_search rid search_term task context
            (Nat.iter c1 OnStep (Return ("Error: " +:+ M)))))
  = store_effects d
      (fst (perform_search rid search_term task context
              (Nat.iter c2 OnStep (Raise M))))
  ∧ (∀ e, store_effects d
            (fst (perform_search rid search_term task context e))
          = <[rid := outcome e]> d)
  ∧ error_messages
      (fst (perform_search rid search_term task context
              (Nat.iter c1 OnStep (Return ("Error: " +:+ M)))))
    = []
  ∧ error_messages
      (fst (perform_search rid search_term task context
              (Nat.iter c2 OnStep (Raise M))))
    = ["Error searching for '" +:+ search_term +:+ "': " +:+ M].
Proof.
  unfold perform_search.
  rewrite !store_run, !error_messages_run_search.
  rewrite !outcome_after_callbacks, !failure_after_callbacks.
  split; [reflexivity|]. split; [|split; reflexivity].
  intros e. apply store_run.
Qed.
